(** * A verification development for the grammar-combinator engine of
    [src/index.ts]

    The engine builds recursive-descent parsers out of named rules.  A rule
    ([ParserRule]) is a name together with a parse function; its public
    [parse] method first checks the recursion guard and then runs the parse
    function with the derivation stack extended by one marker.  The
    combinators ([repInternal], [concatInternal] and the methods of
    [ParserUtils]) build rules out of rules, and [Parser.parse] drives the
    roots of a grammar over a token list.

    The embedding keeps the program's shape.  The closures handed to
    [new ParserRule] are represented by the constructors of [Closure], each
    one carrying the variables the closure captures, and [parseInternal_run]
    is the body of each closure.  Exceptions are an explicit outcome, and
    because a grammar may recurse through [sub] and the repetition loop is a
    [while (true)], the interpreter takes a step budget: [None] means that
    the budget was too small, never a result of the program. *)

From Stdlib Require Import ZArith String List Lia.
From stdpp Require Import base tactics option list strings pretty gmap.

Local Open Scope string_scope.
Local Open Scope list_scope.
Local Open Scope Z_scope.
Set Warnings "-register-all".

(** ** Outcomes: a returned value or a thrown exception *)

(** The engine throws [new Error(message)] itself; reading a property of
    [undefined] makes the runtime throw a [TypeError]. *)
Inductive Exn : Type :=
| Error (message : string)
| TypeError.

Inductive Completion (A : Type) : Type :=
| Return (a : A)
| Throw (e : Exn).
Arguments Return {A} a.
Arguments Throw {A} e.

(** A computation under a step budget. *)
Definition M (A : Type) : Type := option (Completion A).

Definition ret {A} (a : A) : M A := Some (Return a).
Definition throw {A} (e : Exn) : M A := Some (Throw e).
Definition bind {A B} (m : M A) (k : A → M B) : M B :=
  match m with
  | None => None
  | Some (Throw e) => Some (Throw e)
  | Some (Return a) => k a
  end.

Notation "'let*' x ':=' m 'in' k" := (bind m (λ x, k))
  (at level 10, x pattern, m at level 100, k at level 200).

(** ** Strings built by the source *)

Definition newline : string := String (Ascii.ascii_of_nat 10) "".

(** [String.prototype.replace] with a string pattern: the first occurrence
    only. *)
Fixpoint replace (pattern replacement s : string) : string :=
  if String.prefix pattern s
  then replacement
         +:+ String.substring (String.length pattern)
               (String.length s - String.length pattern)%nat s
  else match s with
       | EmptyString => EmptyString
       | String c s' => String c (replace pattern replacement s')
       end.

Section Engine.

(** The payload type of tokens ([L[K]] in the source) and of whatever the
    functions given to [map] build. *)
Context {Data : Type}.

(** ** Data model *)

Record Token : Type := mkToken { key : string; data : Data }.

(** Rules are typed [ParserRule<L, O>] for arbitrary [O]; the values they
    produce at run time are token payloads, arrays ([concat], [rep]),
    [undefined] ([not], a missing array element), and the [OptResult]
    objects of [opt]. *)
Inductive Value : Type :=
| VUndefined
| VData (d : Data)
| VArray (items : list Value)
| VOptResult (success : bool) (value : Value).

Record ParseResult : Type := mkParseResult { value : Value; end_ : Z }.

(** [new ParserRule(name, parseInternal)], with the closures of the source
    as data. *)
Inductive ParserRule : Type :=
| mkParserRule (name : string) (parseInternal : Closure)
with Closure : Type :=
| repInternalFn (rule : ParserRule) (sep : option ParserRule)
                (min : Z) (max : option Z)
| concatInternalFn (rules : list ParserRule)
| notFn (rule : ParserRule)
| orFn (options : list ParserRule)
| orLongestFn (options : list ParserRule)
| firstFn (concat : ParserRule)
| lastFn (concat : ParserRule)
| mapFn (rule : ParserRule) (f : Value → Value)
| filterFn (rule : ParserRule) (f : Value → bool)
| filterMapFn (rule : ParserRule) (f : Value → bool)
| optFn (rule : ParserRule)
| tokenFn (k : string)
| subFn (k : string).

Definition name (r : ParserRule) : string :=
  match r with mkParserRule n _ => n end.
Definition parseInternal (r : ParserRule) : Closure :=
  match r with mkParserRule _ c => c end.

(** [withName]: a new rule, same parse function. *)
Definition withName (r : ParserRule) (n : string) : ParserRule :=
  mkParserRule n (parseInternal r).

(** [input.length] and [input[i]] ([None] is [undefined]). *)
Definition length_ (input : list Token) : Z := Z.of_nat (length input).
Definition at_ (input : list Token) (i : Z) : option Token :=
  if decide (0 ≤ i) then input !! Z.to_nat i else None.

(** ** The recursion guard *)

(** [`${this.name}:${start}`]; offsets are integers, printed in decimal. *)
Definition stackItem_of (r : ParserRule) (start : Z) : string :=
  name r +:+ ":" +:+ pretty start.

Definition includes (stack : list string) (item : string) : bool :=
  bool_decide (item ∈ stack).

Definition loopMessage (stack : list string) (stackItem : string) : string :=
  "Loop detected:" +:+ newline
    +:+ String.concat newline (map (λ s, "* " +:+ s) stack)
    +:+ newline +:+ "> " +:+ stackItem.

(** ** The closures *)

(** The update of [orLongest] and of [Parser.parse]:
    [if (result && (!best || result.end > best.end)) best = result]. *)
Definition keepLongest (best result : option ParseResult)
  : option ParseResult :=
  match result with
  | Some res =>
      match best with
      | None => Some res
      | Some b => if end_ b <? end_ res then Some res else best
      end
  | None => best
  end.

Section Closures.

(** [this.p.rules], read when a [sub] rule runs. *)
Variable p_rules : gmap string ParserRule.

(** The [parse] method of the rules a closure calls. *)
Variable parse :
  ParserRule → list Token → Z → list string → M (option ParseResult).

(** The [while (true)] of [repInternal]; one unit of budget per turn. *)
Fixpoint repLoop (n : nat) (rule : ParserRule) (sep : option ParserRule)
    (input : list Token) (stack : list string)
    (results : list Value) (end' : Z) {struct n} : M (list Value * Z) :=
  match n with
  | O => None
  | S n' =>
      let start := end' in
      let* afterSep :=
        match sep with
        | Some s =>
            let* sepResult := parse s input start stack in
            ret (end_ <$> sepResult)
        | None => ret (Some start)
        end in
      match afterSep with
      | None => ret (results, end')
      | Some start =>
          let* result := parse rule input start stack in
          match result with
          | None => ret (results, end')
          | Some res =>
              repLoop n' rule sep input stack
                      (results ++ [value res]) (end_ res)
          end
      end
  end.

(** The element matching of [repInternal]: the first attempt, then the
    loop. *)
Definition repMatch (n : nat) (rule : ParserRule) (sep : option ParserRule)
    (input : list Token) (start : Z) (stack : list string)
  : M (list Value * Z) :=
  let* firstResult := parse rule input start stack in
  match firstResult with
  | Some res => repLoop n rule sep input stack [value res] (end_ res)
  | None => ret ([], start)
  end.

(** The acceptance test of [repInternal]. *)
Definition repAccept (min : Z) (max : option Z)
    (results : list Value) (end' : Z) : option ParseResult :=
  if (Z.of_nat (length results) <? min)
     || match max with
        | Some m => m <? Z.of_nat (length results)
        | None => false
        end
  then None
  else Some (mkParseResult (VArray results) end').

(** The [for] loop of [concatInternal]. *)
Fixpoint concatLoop (rules : list ParserRule) (input : list Token)
    (stack : list string) (results : list Value) (end' : Z)
  : M (option ParseResult) :=
  match rules with
  | [] => ret (Some (mkParseResult (VArray results) end'))
  | rule :: rest =>
      let* result := parse rule input end' stack in
      match result with
      | None => ret None
      | Some res =>
          concatLoop rest input stack (results ++ [value res]) (end_ res)
      end
  end.

(** The [for] loop of [or]. *)
Fixpoint orLoop (options : list ParserRule) (input : list Token)
    (start : Z) (stack : list string) : M (option ParseResult) :=
  match options with
  | [] => ret None
  | option :: rest =>
      let* result := parse option input start stack in
      match result with
      | Some res => ret (Some res)
      | None => orLoop rest input start stack
      end
  end.

(** The [for] loop of [orLongest]. *)
Fixpoint orLongestLoop (options : list ParserRule) (input : list Token)
    (start : Z) (stack : list string) (longest : option ParseResult)
  : M (option ParseResult) :=
  match options with
  | [] => ret longest
  | option :: rest =>
      let* result := parse option input start stack in
      orLongestLoop rest input start stack (keepLongest longest result)
  end.

(** [value[0]] and [value[value.length - 1]] on what a rule returned. *)
Definition firstOf (v : Value) : Value :=
  match v with
  | VArray (x :: _) => x
  | _ => VUndefined
  end.
Definition lastOf (v : Value) : Value :=
  match v with
  | VArray items => List.last items VUndefined
  | _ => VUndefined
  end.

(** The body of each closure. [n] is the budget of the repetition loop. *)
Definition parseInternal_run (n : nat) (c : Closure)
    (input : list Token) (start : Z) (stack : list string)
  : M (option ParseResult) :=
  match c with
  | repInternalFn rule sep min max =>
      let* (results, end') := repMatch n rule sep input start stack in
      ret (repAccept min max results end')
  | concatInternalFn rules => concatLoop rules input stack [] start
  | notFn rule =>
      let* result := parse rule input start stack in
      ret (match result with
           | Some _ => None
           | None => Some (mkParseResult VUndefined start)
           end)
  | orFn options => orLoop options input start stack
  | orLongestFn options => orLongestLoop options input start stack None
  | firstFn concat =>
      let* result := parse concat input start stack in
      ret (match result with
           | None => None
           | Some res => Some (mkParseResult (firstOf (value res)) (end_ res))
           end)
  | lastFn concat =>
      let* result := parse concat input start stack in
      ret (match result with
           | None => None
           | Some res => Some (mkParseResult (lastOf (value res)) (end_ res))
           end)
  | mapFn rule f =>
      let* result := parse rule input start stack in
      ret (match result with
           | None => None
           | Some res => Some (mkParseResult (f (value res)) (end_ res))
           end)
  | filterFn rule f | filterMapFn rule f =>
      let* result := parse rule input start stack in
      ret (match result with
           | Some res => if f (value res) then Some res else None
           | None => None
           end)
  | optFn rule =>
      let* result := parse rule input start stack in
      ret (match result with
           | None =>
               Some (mkParseResult (VOptResult false VUndefined) start)
           | Some res =>
               Some (mkParseResult (VOptResult true (value res)) (end_ res))
           end)
  | tokenFn k =>
      if length_ input <=? start then ret None
      else match at_ input start with
           | None => throw TypeError
           | Some token =>
               if String.eqb (key token) k
               then ret (Some (mkParseResult (VData (data token)) (start + 1)))
               else ret None
           end
  | subFn k =>
      match p_rules !! k with
      | None => throw TypeError
      | Some r => parse r input start stack
      end
  end.

End Closures.

(** ** [ParserRule.parse] *)

Fixpoint ParserRule_parse (fuel : nat) (p_rules : gmap string ParserRule)
    (r : ParserRule) (input : list Token) (start : Z) (stack : list string)
    {struct fuel} : M (option ParseResult) :=
  match fuel with
  | O => None
  | S fuel' =>
      let stackItem := stackItem_of r start in
      if includes stack stackItem
      then throw (Error (loopMessage stack stackItem))
      else parseInternal_run p_rules (ParserRule_parse fuel' p_rules) fuel'
             (parseInternal r) input start (stack ++ [stackItem])
  end.

(** ** The combinators: the rules they build, names included *)

Definition joinNames (rules : list ParserRule) : string :=
  String.concat ", " (map name rules).

Definition repInternal (rule : ParserRule) (sep : option ParserRule)
    (min : Z) (max : option Z) : ParserRule :=
  let subNames :=
    match sep with
    | Some s => name rule +:+ ", " +:+ name s
    | None => name rule
    end in
  let name :=
    match max with
    | None =>
        if decide (min = 0) then "star(" +:+ subNames +:+ ")"
        else if decide (min = 1) then "plus(" +:+ subNames +:+ ")"
        else "rep(" +:+ subNames +:+ ", " +:+ pretty min +:+ ")"
    | Some max =>
        "rep(" +:+ subNames +:+ ", " +:+ pretty min +:+ ", "
          +:+ pretty max +:+ ")"
    end in
  mkParserRule name (repInternalFn rule sep min max).

Definition concatInternal (rules : list ParserRule) : ParserRule :=
  mkParserRule ("concat(" +:+ joinNames rules +:+ ")")
               (concatInternalFn rules).

(** The methods of [ParserUtils]. *)
Definition not (rule : ParserRule) : ParserRule :=
  mkParserRule ("not(" +:+ name rule +:+ ")") (notFn rule).

Definition or (options : list ParserRule) : ParserRule :=
  mkParserRule ("or(" +:+ joinNames options +:+ ")") (orFn options).

Definition orLongest (options : list ParserRule) : ParserRule :=
  mkParserRule ("orLongest(" +:+ joinNames options +:+ ")")
               (orLongestFn options).

Definition concat (rules : list ParserRule) : ParserRule :=
  concatInternal rules.

Definition first (rule rule1 : ParserRule) (rest : list ParserRule)
  : ParserRule :=
  let concat := concatInternal (rule :: rule1 :: rest) in
  mkParserRule (replace "concat" "first" (name concat)) (firstFn concat).

Definition last (rules : list ParserRule) : ParserRule :=
  let concat := concatInternal rules in
  mkParserRule (replace "concat" "last" (name concat)) (lastFn concat).

Definition map_ (rule : ParserRule) (f : Value → Value) : ParserRule :=
  mkParserRule ("map(" +:+ name rule +:+ ", [function])") (mapFn rule f).

Definition filter_ (rule : ParserRule) (f : Value → bool) : ParserRule :=
  mkParserRule ("filter(" +:+ name rule +:+ ", [function])") (filterFn rule f).

Definition filterMap (rule : ParserRule) (f : Value → bool) : ParserRule :=
  mkParserRule ("filterMap(" +:+ name rule +:+ ", [function])")
               (filterMapFn rule f).

Definition opt (rule : ParserRule) : ParserRule :=
  mkParserRule ("opt(" +:+ name rule +:+ ")") (optFn rule).

Definition star (rule : ParserRule) (sep : option ParserRule) : ParserRule :=
  repInternal rule sep 0 None.

Definition plus (rule : ParserRule) (sep : option ParserRule) : ParserRule :=
  repInternal rule sep 1 None.

(** The four overloads of [rep] differ in which of [sep] and [max] are
    given. *)
Definition rep (rule : ParserRule) (sep : option ParserRule)
    (min : Z) (max : option Z) : ParserRule :=
  repInternal rule sep min max.


Definition token (k : string) : ParserRule :=
  mkParserRule ("token(" +:+ k +:+ ")") (tokenFn k).

Definition sub (k : string) : ParserRule :=
  mkParserRule ("sub(" +:+ k +:+ ")") (subFn k).

(** ** The grammar driver *)

Record Parser : Type := mkParser {
  roots : list string;
  rules : gmap string ParserRule
}.

(** The constructor: the rules the builder returned, each renamed to its
    key. *)
Definition newParser (roots : list string)
    (getRules : gmap string ParserRule) : Parser :=
  mkParser roots (map_imap (λ key r, Some (withName r key)) getRules).

(** [JSON.stringify(input[end])], as it appears in the message. *)
Context (JSON_stringify : option Token → string).

(** The [for] loop of [Parser.parse]. *)
Fixpoint rootsLoop (fuel : nat) (p : Parser) (todo : list string)
    (input : list Token) (best : option ParseResult)
  : M (option ParseResult) :=
  match todo with
  | [] => ret best
  | root :: rest =>
      match rules p !! root with
      | None => throw TypeError
      | Some r =>
          let* result := ParserRule_parse fuel (rules p) r input 0 [] in
          rootsLoop fuel p rest input (keepLongest best result)
      end
  end.

Definition Parser_parse (fuel : nat) (p : Parser) (input : list Token)
  : M Value :=
  let* best := rootsLoop fuel p (roots p) input None in
  match best with
  | None => throw (Error "Failed to parse")
  | Some res =>
      if end_ res <? length_ input
      then throw (Error ("Not all tokens were consumed: "
                           +:+ JSON_stringify (at_ input (end_ res))))
      else ret (value res)
  end.

End Engine.

Arguments Token : clear implicits.
Arguments Value : clear implicits.
Arguments ParseResult : clear implicits.
Arguments ParserRule : clear implicits.
Arguments Closure : clear implicits.
Arguments Parser : clear implicits.

(** * Notions of the specification *)

Section Specification.

Context {Data : Type}.

Local Abbreviation parseFn :=
  (ParserRule Data → list (Token Data) → Z → list string
   → M (option (ParseResult Data))).

(** The marker of a rule invocation, as the guard writes it on the stack. *)
Definition marker (m : string * Z) : string := m.1 +:+ ":" +:+ pretty m.2.

(** The end offset after a run of results that began at [start]. *)
Definition lastEnd (start : Z) (ress : list (ParseResult Data)) : Z :=
  List.last (map end_ ress) start.

(** Longest match, the earliest on a tie: [sel] is the selection among the
    attempts [outs], listed in order. *)
Definition firstLongest (outs : list (option (ParseResult Data)))
    (sel : option (ParseResult Data)) : Prop :=
  match sel with
  | None => ∀ o, o ∈ outs → o = None
  | Some b =>
      ∃ i : nat,
        outs !! i = Some (Some b)
        ∧ (∀ (j : nat) b', outs !! j = Some (Some b') → end_ b' ≤ end_ b)
        ∧ (∀ (j : nat) b', (j < i)%nat → outs !! j = Some (Some b') →
                           end_ b' < end_ b)
  end.

(** A sequence: every rule matches, each one where its predecessor ended. *)
Inductive Chain (f : parseFn) (input : list (Token Data))
    (stack : list string)
  : Z → list (ParserRule Data) → list (ParseResult Data) → Prop :=
| Chain_nil start : Chain f input stack start [] []
| Chain_cons start rule rest res ress :
    f rule input start stack = ret (Some res) →
    Chain f input stack (end_ res) rest ress →
    Chain f input stack start (rule :: rest) (res :: ress).

Section Repetition.

Variables (f : parseFn) (rule : ParserRule Data)
          (sep : option (ParserRule Data))
          (input : list (Token Data)) (stack : list string).

(** Where the next element is attempted when the previous one ended at
    [e]: after the separator, if one is configured. *)
Definition afterSep (e start' : Z) : Prop :=
  match sep with
  | None => start' = e
  | Some s => ∃ sr, f s input e stack = ret (Some sr) ∧ start' = end_ sr
  end.

(** The elements matched after one that ended at [e]. *)
Inductive RepChain : Z → list (ParseResult Data) → Prop :=
| RepChain_nil e : RepChain e []
| RepChain_cons e start' res ress :
    afterSep e start' →
    f rule input start' stack = ret (Some res) →
    RepChain (end_ res) ress →
    RepChain e (res :: ress).

(** No further element after one that ended at [e]: the separator fails,
    or the element fails where the separator ended. *)
Definition RepStop (e : Z) : Prop :=
  (∃ s, sep = Some s ∧ f s input e stack = ret None)
  ∨ (∃ start', afterSep e start' ∧ f rule input start' stack = ret None).

(** The greedy match from [start]: all the elements, in order. *)
Definition Greedy (start : Z) (ress : list (ParseResult Data)) : Prop :=
  match ress with
  | [] => f rule input start stack = ret None
  | res :: rest =>
      f rule input start stack = ret (Some res)
      ∧ RepChain (end_ res) rest
      ∧ RepStop (lastEnd (end_ res) rest)
  end.

End Repetition.

Implicit Types (r : ParserRule Data) (input : list (Token Data)).
Implicit Types (start : Z) (stack : list string).

(** ** Relations between parse functions *)

(** [g] reaches every outcome that [f] reaches. *)
Definition reaches (f g : parseFn) : Prop :=
  ∀ r input start stack c,
    f r input start stack = Some c → g r input start stack = Some c.

(** Every result [f] returns from an offset inside the input ends inside
    the input, at or after that offset. *)
Definition bounded (f : parseFn) : Prop :=
  ∀ r input start stack res,
    0 ≤ start ≤ length_ input →
    f r input start stack = Some (Return (Some res)) →
    start ≤ end_ res ≤ length_ input.

(** Two parse functions never return different things for the same rule,
    input and offset, whatever the stacks. *)
Definition agree (f g : parseFn) : Prop :=
  ∀ r input start stack1 stack2 o1 o2,
    f r input start stack1 = Some (Return o1) →
    g r input start stack2 = Some (Return o2) →
    o1 = o2.

(** What [Parser.parse] does once a root has been selected. *)
Definition finish (json : option (Token Data) → string)
    (input : list (Token Data))
    (sel : option (ParseResult Data)) : M (Value Data) :=
  match sel with
  | None => throw (Error "Failed to parse")
  | Some b =>
      if end_ b <? length_ input
      then throw (Error ("Not all tokens were consumed: "
                           +:+ json (input !! Z.to_nat (end_ b))))
      else ret (value b)
  end.

(** ** The rules of a grammar *)

(** The rules whose [parse] a closure calls directly ([sub] goes through the
    registry instead). *)
Definition children (c : Closure Data) : list (ParserRule Data) :=
  match c with
  | repInternalFn rule sep _ _ =>
      rule :: match sep with Some s => [s] | None => [] end
  | concatInternalFn rules => rules
  | orFn options | orLongestFn options => options
  | notFn rule | firstFn rule | lastFn rule | optFn rule => [rule]
  | mapFn rule _ => [rule]
  | filterFn rule _ | filterMapFn rule _ => [rule]
  | tokenFn _ | subFn _ => []
  end.

(** A rule and all the rules nested in it. *)
Fixpoint subrules (r : ParserRule Data) : list (ParserRule Data) :=
  r :: match r with
       | mkParserRule _ c =>
           match c with
           | repInternalFn rule sep _ _ =>
               subrules rule
                 ++ match sep with Some s => subrules s | None => [] end
           | concatInternalFn rules => flat_map subrules rules
           | orFn options | orLongestFn options => flat_map subrules options
           | notFn rule | firstFn rule | lastFn rule | optFn rule =>
               subrules rule
           | mapFn rule _ => subrules rule
           | filterFn rule _ | filterMapFn rule _ => subrules rule
           | tokenFn _ | subFn _ => []
           end
       end.

(** The rules a parse of the grammar can invoke: the registered rules and
    what they call. *)
Inductive Reach (rs : gmap string (ParserRule Data))
  : ParserRule Data → Prop :=
| Reach_rule k r : rs !! k = Some r → Reach rs r
| Reach_child r r' :
    Reach rs r → r' ∈ children (parseInternal r) → Reach rs r'.

Definition grammarRules (rs : gmap string (ParserRule Data))
  : list (ParserRule Data) :=
  flat_map subrules (map snd (map_to_list rs)).

(** The offsets of an input, [0] to its length. *)
Definition offsets (input : list (Token Data)) : list Z :=
  map Z.of_nat (seq 0 (S (length input))).

(** Every marker a parse of [input] with the grammar can push. *)
Definition markers (rs : gmap string (ParserRule Data))
    (input : list (Token Data)) : list string :=
  flat_map (λ r, map (stackItem_of r) (offsets input)) (grammarRules rs).

(** How many of them are not on the stack yet. *)
Definition room (rs : gmap string (ParserRule Data))
    (input : list (Token Data)) (stack : list string) : nat :=
  length (filter (λ m, m ∉ stack) (markers rs input)).

(** Every repetition of the grammar has an element that consumes input
    whenever it matches. *)
Definition repetitionsConsume (rs : gmap string (ParserRule Data))
    (input : list (Token Data)) : Prop :=
  ∀ n rule sep min max,
    Reach rs (mkParserRule n (repInternalFn rule sep min max)) →
    ∀ fuel start stack res,
      ParserRule_parse fuel rs rule input start stack = ret (Some res) →
      start < end_ res.

(** Every name a [sub] rule of the grammar refers to is registered. *)
Definition subsRegistered (rs : gmap string (ParserRule Data)) : Prop :=
  ∀ n k, Reach rs (mkParserRule n (subFn k)) → is_Some (rs !! k).

(** The exception of the recursion guard. *)
Definition isLoop (e : Exn) : Prop :=
  ∃ stack stackItem, e = Error (loopMessage stack stackItem).

End Specification.

(** * Grammars used as examples *)

Module Examples.

Definition tok (k : string) : Token string := mkToken k k.
Definition json (t : option (Token string)) : string :=
  match t with
  | Some t => "{'key':'" +:+ key t +:+ "'}"
  | None => "undefined"
  end.

(** The grammar of the end-to-end example: one root, one or more digits. *)
Definition digits : Parser string :=
  newParser ["number"] {[ "number" := rep (token "digit") None 1 None ]}.

(** A rule that refers to itself without consuming input. *)
Definition selfRef : Parser string :=
  newParser ["a"] {[ "a" := sub "a" ]}.

(** A repetition of an element that can match the empty input. *)
Definition starOpt : Parser string :=
  newParser ["r"] {[ "r" := star (opt (token "A")) None ]}.

(** Two and three tokens [x] in sequence. *)
Definition two : ParserRule string := concat [token "x"; token "x"].
Definition three : ParserRule string :=
  concat [token "x"; token "x"; token "x"].

(** A comma-separated list of [A]. *)
Definition listA : ParserRule string :=
  star (token "A") (Some (token "SEP")).

End Examples.

(** * Properties *)

(** ** The outcome monad *)

Lemma bind_reaches {A B} (m1 m2 : M A) (k1 k2 : A → M B) c :
  (∀ c', m1 = Some c' → m2 = Some c') →
  (∀ a c', k1 a = Some c' → k2 a = Some c') →
  bind m1 k1 = Some c → bind m2 k2 = Some c.
Proof.
  intros Hm Hk. unfold bind.
  destruct m1 as [[a|e]|]; [| |discriminate].
  - rewrite (Hm _ eq_refl). apply Hk.
  - rewrite (Hm _ eq_refl). auto.
Qed.

Lemma bind_Return_inv {A B} (m : M A) (k : A → M B) b :
  bind m k = Some (Return b) →
  ∃ a, m = Some (Return a) ∧ k a = Some (Return b).
Proof. destruct m as [[a|e]|]; simpl; [eauto|discriminate..]. Qed.

Lemma ret_Return_inv {A} (a b : A) : ret a = Some (Return b) → a = b.
Proof. unfold ret. congruence. Qed.

(** Case analysis on a closure, with the names of what it captures. *)
Ltac destruct_closure c :=
  destruct c as
    [rule sep min max|rules'|rule|options|options|cc|cc|rule h|rule h|rule h
    |rule|k|k].

Ltac bind_inv H :=
  let a := fresh "a" in
  let Ha := fresh "Ha" in
  apply bind_Return_inv in H as (a & Ha & H).

Section Properties.

Context {Data : Type}.
Implicit Types (r rule : ParserRule Data) (input : list (Token Data)).
Implicit Types (rs : gmap string (ParserRule Data)).
Implicit Types (start : Z) (stack : list string).

Local Abbreviation parseFn :=
  (ParserRule Data → list (Token Data) → Z → list string
   → M (option (ParseResult Data))).

(** ** One step of [ParserRule.parse] *)

Lemma ParserRule_parse_S fuel rs r input start
    stack :
  ParserRule_parse (S fuel) rs r input start stack
  = if includes stack (stackItem_of r start)
    then throw (Error (loopMessage stack (stackItem_of r start)))
    else parseInternal_run rs (ParserRule_parse fuel rs) fuel
           (parseInternal r) input start (stack ++ [stackItem_of r start]).
Proof. done. Qed.

(** ** The budget only decides whether an outcome is reached *)


Lemma repLoop_reaches (f g : parseFn) :
  reaches f g →
  ∀ n1 n2 rule sep input stack results e c,
    (n1 ≤ n2)%nat →
    repLoop f n1 rule sep input stack results e = Some c →
    repLoop g n2 rule sep input stack results e = Some c.
Proof.
  intros Hfg. induction n1 as [|n1 IH]; intros n2 rule sep input stack
    results e c Hle; [discriminate|].
  destruct n2 as [|n2]; [lia|]. simpl.
  apply bind_reaches.
  - destruct sep as [s|]; [|auto].
    intros c'. apply bind_reaches; auto.
  - intros [start'|] c'; [|auto].
    apply bind_reaches; [auto|].
    intros [res|] c''; [|auto]. apply IH. lia.
Qed.

Lemma parseInternal_run_reaches rs (f g : parseFn) :
  reaches f g →
  ∀ n1 n2 cl input start stack c,
    (n1 ≤ n2)%nat →
    parseInternal_run rs f n1 cl input start stack = Some c →
    parseInternal_run rs g n2 cl input start stack = Some c.
Proof.
  intros Hfg n1 n2 cl input start stack c Hle.
  destruct_closure cl; simpl;
    try solve [apply bind_reaches; [solve [auto]|intros; assumption]].
  - apply bind_reaches; [|auto]. intros c'. unfold repMatch.
    apply bind_reaches; [auto|].
    intros [res|] c''; [|auto]. by apply repLoop_reaches.
  - generalize (@nil (Value Data)). revert start c.
    induction rules' as [|rule rest IH]; intros start c results; simpl; [auto|].
    apply bind_reaches; [auto|]. intros [res|] c'; [|auto]. apply IH.
  - revert c. induction options as [|o rest IH]; intros c; simpl; [auto|].
    apply bind_reaches; [auto|]. intros [res|] c'; [auto|]. apply IH.
  - generalize (@None (ParseResult Data)). revert c.
    induction options as [|o rest IH]; intros c longest; simpl; [auto|].
    apply bind_reaches; [auto|]. intros result c'. apply IH.
  - auto.
  - destruct (rs !! k); auto.
Qed.

Lemma ParserRule_parse_reaches rs fuel1 fuel2 :
  (fuel1 ≤ fuel2)%nat →
  reaches (ParserRule_parse fuel1 rs) (ParserRule_parse fuel2 rs).
Proof.
  revert fuel2. induction fuel1 as [|fuel1 IH]; intros fuel2 Hle
    r input start stack c; [discriminate|].
  destruct fuel2 as [|fuel2]; [lia|]. simpl.
  destruct (includes stack (stackItem_of r start)); [auto|].
  apply parseInternal_run_reaches; [apply IH|]; lia.
Qed.

(** ** Offsets stay inside the input *)



Lemma repLoop_bounded (f : parseFn) :
  bounded f →
  ∀ n rule sep input stack results e results' e',
    0 ≤ e ≤ length_ input →
    repLoop f n rule sep input stack results e = Some (Return (results', e')) →
    e ≤ e' ≤ length_ input.
Proof.
  intros Hf. induction n as [|n IH]; intros rule sep input stack results e
    results' e' He H; [discriminate|].
  simpl in H. bind_inv H.
  assert (∀ s', a = Some s' → e ≤ s' ≤ length_ input) as Hsep.
  { intros s' ->. destruct sep as [s|].
    - bind_inv Ha. apply ret_Return_inv in Ha.
      destruct a as [sr|]; simplify_eq/=. eapply Hf; eauto.
    - apply ret_Return_inv in Ha. simplify_eq. lia. }
  destruct a as [s'|]; [|apply ret_Return_inv in H; simplify_eq; lia].
  specialize (Hsep _ eq_refl). bind_inv H.
  destruct a as [res|]; [|apply ret_Return_inv in H; simplify_eq; lia].
  apply Hf in Ha0; [|lia]. apply IH in H; lia.
Qed.

Lemma parseInternal_run_bounded rs (f : parseFn) :
  bounded f →
  ∀ n cl input start stack res,
    0 ≤ start ≤ length_ input →
    parseInternal_run rs f n cl input start stack = Some (Return (Some res)) →
    start ≤ end_ res ≤ length_ input.
Proof.
  intros Hf n cl input start stack res Hs H. destruct_closure cl; simpl in H.
  - bind_inv H. destruct a as [results e]. apply ret_Return_inv in H.
    unfold repAccept in H. case_match; simplify_eq/=.
    unfold repMatch in Ha. bind_inv Ha. destruct a as [fr|].
    + apply Hf in Ha0; [|done]. apply repLoop_bounded in Ha; [lia|done|lia].
    + apply ret_Return_inv in Ha. simplify_eq. lia.
  - assert (∀ rules results e,
      0 ≤ e ≤ length_ input →
      concatLoop f rules input stack results e = Some (Return (Some res)) →
      e ≤ end_ res ≤ length_ input) as Hloop; [|by eapply Hloop].
    clear H. intros rules. induction rules as [|rule rest IH];
      intros results e He H; simpl in H.
    + apply ret_Return_inv in H. simplify_eq/=. lia.
    + bind_inv H. destruct a as [r1|]; [|by apply ret_Return_inv in H].
      apply Hf in Ha; [|done]. apply IH in H; lia.
  - bind_inv H. apply ret_Return_inv in H.
    destruct a; simplify_eq/=. lia.
  - induction options as [|o rest IH]; simpl in H;
      [by apply ret_Return_inv in H|].
    bind_inv H. destruct a as [r1|]; [|auto].
    apply ret_Return_inv in H. simplify_eq. eauto.
  - assert (∀ options longest,
      (∀ b, longest = Some b → start ≤ end_ b ≤ length_ input) →
      orLongestLoop f options input start stack longest
        = Some (Return (Some res)) →
      start ≤ end_ res ≤ length_ input) as Hloop;
      [|eapply Hloop; [|exact H]; done].
    clear H. intros opts. induction opts as [|o rest IH];
      intros longest Hl H; simpl in H.
    + apply ret_Return_inv in H. auto.
    + bind_inv H. eapply IH; [|exact H].
      intros b Hb. destruct a as [r1|]; simpl in Hb; [|auto].
      apply Hf in Ha; [|done].
      destruct longest as [b0|]; [|by simplify_eq].
      case_match; simplify_eq; auto.
  - bind_inv H. apply ret_Return_inv in H.
    destruct a; simplify_eq/=. eauto.
  - bind_inv H. apply ret_Return_inv in H.
    destruct a; simplify_eq/=. eauto.
  - bind_inv H. apply ret_Return_inv in H.
    destruct a; simplify_eq/=. eauto.
  - bind_inv H. apply ret_Return_inv in H.
    destruct a; [case_match|]; simplify_eq/=. eauto.
  - bind_inv H. apply ret_Return_inv in H.
    destruct a; [case_match|]; simplify_eq/=. eauto.
  - bind_inv H. apply ret_Return_inv in H.
    destruct a; simplify_eq/=; [eauto|lia].
  - destruct (Z.leb_spec (length_ input) start);
      [by apply ret_Return_inv in H|].
    destruct (at_ input start); [|discriminate].
    case_match; apply ret_Return_inv in H; simplify_eq/=. lia.
  - destruct (rs !! k); [eauto|discriminate].
Qed.

Lemma ParserRule_parse_bounded rs fuel : bounded (ParserRule_parse fuel rs).
Proof.
  induction fuel as [|fuel IH]; intros r input start stack res Hs H;
    [discriminate|].
  simpl in H. destruct (includes stack (stackItem_of r start));
    [discriminate|].
  eapply parseInternal_run_bounded; eauto.
Qed.

(** ** What a rule returns does not depend on the stack

    The stack is read by the guard only, and the guard either throws or
    lets the parse function run: two runs that both return have made the
    same calls. *)


Lemma repLoop_agree (f g : parseFn) :
  agree f g →
  ∀ n1 n2 rule sep input stack1 stack2 results e x y,
    repLoop f n1 rule sep input stack1 results e = Some (Return x) →
    repLoop g n2 rule sep input stack2 results e = Some (Return y) →
    x = y.
Proof.
  intros Hfg. induction n1 as [|n1 IH]; intros n2 rule sep input stack1
    stack2 results e x y H1 H2; [discriminate|].
  destruct n2 as [|n2]; [discriminate|]. simpl in H1, H2.
  bind_inv H1. bind_inv H2.
  assert (a = a0) as <-.
  { destruct sep as [s|].
    - bind_inv Ha. bind_inv Ha0.
      apply ret_Return_inv in Ha, Ha0. rewrite <- Ha, <- Ha0.
      by rewrite (Hfg _ _ _ _ _ _ _ Ha1 Ha2).
    - apply ret_Return_inv in Ha, Ha0. congruence. }
  destruct a as [s'|].
  - bind_inv H1. bind_inv H2.
    rewrite <- (Hfg _ _ _ _ _ _ _ Ha1 Ha2) in H2.
    destruct a as [res|]; [eauto|].
    apply ret_Return_inv in H1, H2. congruence.
  - apply ret_Return_inv in H1, H2. congruence.
Qed.

Lemma parseInternal_run_agree rs (f g : parseFn) :
  agree f g →
  ∀ n1 n2 cl input start stack1 stack2 o1 o2,
    parseInternal_run rs f n1 cl input start stack1 = Some (Return o1) →
    parseInternal_run rs g n2 cl input start stack2 = Some (Return o2) →
    o1 = o2.
Proof.
  intros Hfg n1 n2 cl input start stack1 stack2 o1 o2 H1 H2.
  destruct_closure cl; simpl in H1, H2;
    try solve [ bind_inv H1; bind_inv H2;
                rewrite <- (Hfg _ _ _ _ _ _ _ Ha Ha0) in H2; congruence ].
  - bind_inv H1. bind_inv H2. assert (a = a0) as <-; [|congruence].
    unfold repMatch in Ha, Ha0. bind_inv Ha. bind_inv Ha0.
    rewrite <- (Hfg _ _ _ _ _ _ _ Ha1 Ha2) in Ha0.
    destruct a1 as [res|]; [by eapply repLoop_agree|congruence].
  - revert H1 H2. generalize (@nil (Value Data)). revert start.
    induction rules' as [|rule rest IH]; intros start results H1 H2;
      simpl in H1, H2; [congruence|].
    bind_inv H1. bind_inv H2.
    rewrite <- (Hfg _ _ _ _ _ _ _ Ha Ha0) in H2.
    destruct a as [res|]; [eauto|congruence].
  - induction options as [|o rest IH]; simpl in H1, H2; [congruence|].
    bind_inv H1. bind_inv H2.
    rewrite <- (Hfg _ _ _ _ _ _ _ Ha Ha0) in H2.
    destruct a as [res|]; [congruence|eauto].
  - revert H1 H2. generalize (@None (ParseResult Data)).
    induction options as [|o rest IH]; intros longest H1 H2;
      simpl in H1, H2; [congruence|].
    bind_inv H1. bind_inv H2.
    rewrite <- (Hfg _ _ _ _ _ _ _ Ha Ha0) in H2. eauto.
  - repeat case_match; congruence.
  - destruct (rs !! k); [eauto|discriminate].
Qed.

Lemma ParserRule_parse_agree rs fuel1 fuel2 :
  agree (ParserRule_parse fuel1 rs) (ParserRule_parse fuel2 rs).
Proof.
  revert fuel2. induction fuel1 as [|fuel1 IH]; intros fuel2 r input start
    stack1 stack2 o1 o2 H1 H2; [discriminate|].
  destruct fuel2 as [|fuel2]; [discriminate|]. simpl in H1, H2.
  destruct (includes stack1 _); [discriminate|].
  destruct (includes stack2 _); [discriminate|].
  eapply parseInternal_run_agree; eauto.
Qed.

(** ** Longest match, earliest on a tie *)

Lemma keepLongest_firstLongest (outs : list (option (ParseResult Data)))
    sel o :
  firstLongest outs sel → firstLongest (outs ++ [o]) (keepLongest sel o).
Proof.
  intros Hsel. destruct o as [res|]; simpl.
  - destruct sel as [b|]; simpl in *.
    + destruct Hsel as (i & Hi & Hmax & Hfirst).
      destruct (Z.ltb_spec (end_ b) (end_ res)) as [Hlt|Hge].
      * exists (length outs). split; [by rewrite lookup_app_r, Nat.sub_diag|].
        split.
        -- intros j b' [[_ Hj]|[_ ?]]%lookup_snoc_Some; simplify_eq; [|lia].
           apply Hmax in Hj. lia.
        -- intros j b' Hlt' [[_ Hj]|[? ?]]%lookup_snoc_Some; [|lia].
           apply Hmax in Hj. lia.
      * exists i. split; [by apply lookup_app_l_Some|]. split.
        -- intros j b' [[_ Hj]|[_ ?]]%lookup_snoc_Some; simplify_eq; eauto.
        -- intros j b' Hlt' [[_ Hj]|[? ?]]%lookup_snoc_Some; [eauto|].
           apply lookup_lt_Some in Hi. lia.
    + exists (length outs). split; [by rewrite lookup_app_r, Nat.sub_diag|].
      split.
      * intros j b' [[_ Hj]|[_ ?]]%lookup_snoc_Some; simplify_eq; [|lia].
        apply list_elem_of_lookup_2, Hsel in Hj. discriminate.
      * intros j b' Hlt' [[_ Hj]|[? ?]]%lookup_snoc_Some; [|lia].
        apply list_elem_of_lookup_2, Hsel in Hj. discriminate.
  - destruct sel as [b|]; simpl in *.
    + destruct Hsel as (i & Hi & Hmax & Hfirst).
      exists i. split; [by apply lookup_app_l_Some|]. split.
      * intros j b' [[_ Hj]|[_ ?]]%lookup_snoc_Some; simplify_eq; eauto.
      * intros j b' Hlt' [[_ Hj]|[? ?]]%lookup_snoc_Some; [eauto|].
        apply lookup_lt_Some in Hi. lia.
    + intros o [Ho| ->%list_elem_of_singleton]%elem_of_app; auto.
Qed.

Lemma foldl_keepLongest_firstLongest
    (outs done : list (option (ParseResult Data))) sel :
  firstLongest done sel →
  firstLongest (done ++ outs) (foldl keepLongest sel outs).
Proof.
  revert done sel. induction outs as [|o outs IH]; intros done sel Hsel;
    simpl.
  - by rewrite app_nil_r.
  - replace (done ++ o :: outs) with ((done ++ [o]) ++ outs)
      by (by rewrite <- app_assoc).
    apply IH. by apply keepLongest_firstLongest.
Qed.

Lemma firstLongest_nil : firstLongest (@nil (option (ParseResult Data))) None.
Proof. intros o Ho. by apply elem_of_nil in Ho. Qed.

Lemma firstLongest_unique (outs : list (option (ParseResult Data)))
    sel1 sel2 :
  firstLongest outs sel1 → firstLongest outs sel2 → sel1 = sel2.
Proof.
  destruct sel1 as [b1|], sel2 as [b2|]; simpl; intros H1 H2; [| | |done].
  - destruct H1 as (i1 & Hi1 & Hmax1 & Hfirst1).
    destruct H2 as (i2 & Hi2 & Hmax2 & Hfirst2).
    destruct (Nat.lt_trichotomy i1 i2) as [Hlt|[->|Hlt]].
    + specialize (Hfirst2 _ _ Hlt Hi1). specialize (Hmax1 _ _ Hi2). lia.
    + congruence.
    + specialize (Hfirst1 _ _ Hlt Hi2). specialize (Hmax2 _ _ Hi1). lia.
  - destruct H1 as (i1 & Hi1 & _).
    apply list_elem_of_lookup_2, H2 in Hi1. discriminate.
  - destruct H2 as (i2 & Hi2 & _).
    apply list_elem_of_lookup_2, H1 in Hi2. discriminate.
Qed.

Lemma orLongestLoop_returns (f : parseFn) input start stack :
  ∀ options outs longest,
    Forall2 (λ o out, f o input start stack = ret out) options outs →
    orLongestLoop f options input start stack longest
    = ret (foldl keepLongest longest outs).
Proof.
  intros options outs longest H. revert longest.
  induction H as [|o out options outs Ho _ IH]; intros longest; simpl;
    [done|].
  rewrite Ho. simpl. apply IH.
Qed.

Lemma orLongestLoop_throws (f : parseFn) input start stack :
  ∀ pre o post outs longest e,
    Forall2 (λ o out, f o input start stack = ret out) pre outs →
    f o input start stack = throw e →
    orLongestLoop f (pre ++ o :: post) input start stack longest = throw e.
Proof.
  intros pre o post outs longest e H He. revert longest.
  induction H as [|o' out pre outs Ho _ IH]; intros longest; simpl.
  - by rewrite He.
  - rewrite Ho. simpl. apply IH.
Qed.

(** C6: [orLongest] attempts every option from the same start; when each
    attempt returns, the result is the one with the greatest end offset,
    the earliest-listed among equals (a later option replaces the current
    best only with a strictly greater end), and there is no result exactly
    when every option fails.  Nothing is skipped: an exception thrown by a
    later option surfaces even when an earlier option has matched. *)
Theorem C6_orLongest_selects (f : parseFn) rs n options input start stack :
  (∀ outs,
     Forall2 (λ o out, f o input start stack = ret out) options outs →
     ∃ sel,
       parseInternal_run rs f n (parseInternal (orLongest options))
                         input start stack = ret sel
       ∧ firstLongest outs sel
       ∧ (∀ sel', firstLongest outs sel' → sel' = sel)
       ∧ (sel = None ↔ Forall (λ out, out = None) outs))
  ∧ (∀ pre o post outs e,
       options = pre ++ o :: post →
       Forall2 (λ o out, f o input start stack = ret out) pre outs →
       f o input start stack = throw e →
       parseInternal_run rs f n (parseInternal (orLongest options))
                         input start stack = throw e).
Proof.
  split.
  - intros outs Houts. exists (foldl keepLongest None outs).
    assert (firstLongest outs (foldl keepLongest None outs)) as Hsel.
    { apply (foldl_keepLongest_firstLongest outs []), firstLongest_nil. }
    split; [by apply orLongestLoop_returns|]. split; [done|]. split.
    + intros sel' Hsel'. by eapply firstLongest_unique.
    + destruct (foldl keepLongest None outs) as [b|]; simpl in Hsel.
      * split; [done|]. intros Hall. destruct Hsel as (i & Hi & _).
        rewrite Forall_forall in Hall.
        apply list_elem_of_lookup_2, Hall in Hi. discriminate.
      * split; [|done]. intros _. rewrite Forall_forall.
        intros o Ho. by apply Hsel.
  - intros pre o post outs e -> Hpre He. simpl.
    by eapply orLongestLoop_throws.
Qed.

(** ** The top-level parse *)


Lemma rootsLoop_returns fuel (p : Parser Data) input :
  ∀ todo outs best,
    Forall2 (λ root out, ∃ r, rules p !! root = Some r
               ∧ ParserRule_parse fuel (rules p) r input 0 [] = ret out)
            todo outs →
    rootsLoop fuel p todo input best = ret (foldl keepLongest best outs).
Proof.
  intros todo outs best H. revert best.
  induction H as [|root out todo outs (r & Hr & Ho) _ IH]; intros best;
    simpl; [done|].
  rewrite Hr, Ho. simpl. apply IH.
Qed.

Lemma firstLongest_bounded fuel (p : Parser Data) input :
  ∀ todo outs b,
    Forall2 (λ root out, ∃ r, rules p !! root = Some r
               ∧ ParserRule_parse fuel (rules p) r input 0 [] = ret out)
            todo outs →
    firstLongest outs (Some b) →
    0 ≤ end_ b ≤ length_ input.
Proof.
  intros todo outs b H (i & Hi & _).
  destruct (Forall2_lookup_r _ _ _ _ _ H Hi) as (root & _ & r & _ & Hr).
  apply ParserRule_parse_bounded in Hr; unfold length_ in *; lia.
Qed.

(** C3: [Parser.parse] attempts every root at offset 0 with an empty stack.
    When each attempt returns, it selects among the successes the one with
    the greatest end offset, the earliest-listed root among equals; it
    throws "Failed to parse" exactly when no root succeeded, throws "Not all
    tokens were consumed" with the token at the selected end offset exactly
    when that offset is less than the input length, and otherwise returns
    the selected value. *)
Theorem C3_top_level_parse (json : option (Token Data) → string) fuel
    (p : Parser Data) input outs :
  Forall2 (λ root out, ∃ r, rules p !! root = Some r
             ∧ ParserRule_parse fuel (rules p) r input 0 [] = ret out)
          (roots p) outs →
  ∃ sel,
    firstLongest outs sel
    ∧ (∀ sel', firstLongest outs sel' → sel' = sel)
    ∧ Parser_parse json fuel p input = finish json input sel
    ∧ (Parser_parse json fuel p input = throw (Error "Failed to parse")
       ↔ Forall (λ out, out = None) outs)
    ∧ (∀ b, sel = Some b →
         (end_ b < length_ input
          ↔ ∃ tok, input !! Z.to_nat (end_ b) = Some tok
              ∧ Parser_parse json fuel p input
                = throw (Error ("Not all tokens were consumed: "
                                  +:+ json (Some tok))))
         ∧ (length_ input ≤ end_ b
            ↔ Parser_parse json fuel p input = ret (value b))).
Proof.
  intros Houts. exists (foldl keepLongest None outs).
  assert (firstLongest outs (foldl keepLongest None outs)) as Hsel.
  { apply (foldl_keepLongest_firstLongest outs []), firstLongest_nil. }
  assert (Parser_parse json fuel p input
          = finish json input (foldl keepLongest None outs)) as Hrun.
  { unfold Parser_parse. rewrite (rootsLoop_returns _ _ _ _ _ _ Houts).
    simpl. destruct (foldl keepLongest None outs) as [b|] eqn:Hb; [|done].
    simpl. destruct (Z.ltb_spec (end_ b) (length_ input)); [|done].
    pose proof (firstLongest_bounded _ _ _ _ _ _ Houts Hsel).
    unfold at_. by rewrite decide_True by lia. }
  split; [done|]. split; [intros; by eapply firstLongest_unique|].
  split; [done|]. rewrite Hrun. clear Hrun.
  destruct (foldl keepLongest None outs) as [b|]; simpl in *.
  - split.
    + split.
      * destruct (end_ b <? length_ input); discriminate.
      * intros Hall. destruct Hsel as (i & Hi & _).
        rewrite Forall_forall in Hall.
        apply list_elem_of_lookup_2, Hall in Hi. discriminate.
    + intros ? [= <-].
      pose proof (firstLongest_bounded _ _ _ _ _ _ Houts Hsel) as Hb.
      destruct (Z.ltb_spec (end_ b) (length_ input)) as [Hlt|Hge].
      * split; [split; [intros _|done]|split; [lia|discriminate]].
        destruct (lookup_lt_is_Some_2 input (Z.to_nat (end_ b))) as [tok Ht].
        { unfold length_ in *. lia. }
        exists tok. by rewrite Ht.
      * split; [split; [lia|]|done]. by intros (tok & _ & ?).
  - split; [|done]. split; [|done]. intros _. rewrite Forall_forall.
    intros o Ho. by apply Hsel.
Qed.

(** ** Sequences *)

Lemma lastEnd_cons start (res : ParseResult Data) ress :
  lastEnd start (res :: ress) = lastEnd (end_ res) ress.
Proof.
  unfold lastEnd. simpl. generalize (end_ res). generalize (map end_ ress).
  clear. intros l. revert start. induction l as [|a [|b l] IH];
    intros start z; simpl in *; auto.
Qed.

Lemma lastEnd_snoc start (ress : list (ParseResult Data)) res :
  lastEnd start (ress ++ [res]) = end_ res.
Proof.
  unfold lastEnd. rewrite map_app. simpl. apply last_last.
Qed.

Lemma concatLoop_Some (f : parseFn) input stack rules :
  ∀ results e res,
    concatLoop f rules input stack results e = ret (Some res)
    ↔ ∃ ress, Chain f input stack e rules ress
        ∧ res = mkParseResult (VArray (results ++ map value ress))
                              (lastEnd e ress).
Proof.
  induction rules as [|rule rest IH]; intros results e res; simpl.
  - split.
    + intros [= <-]. exists []. split; [constructor|].
      by rewrite app_nil_r.
    + intros (ress & Hc & ->). inversion Hc; subst. simpl.
      by rewrite app_nil_r.
  - split.
    + intros H. bind_inv H. destruct a as [r1|]; [|discriminate].
      apply IH in H as (ress & Hc & ->). exists (r1 :: ress).
      split; [by econstructor|].
      rewrite lastEnd_cons. simpl. by rewrite <- app_assoc.
    + intros (ress & Hc & ->). inversion Hc as [|? ? ? r1 ress' H1 Hc']; subst.
      rewrite H1. simpl. apply IH. exists ress'. split; [done|].
      rewrite lastEnd_cons. simpl. by rewrite <- app_assoc.
Qed.

Lemma concatLoop_None (f : parseFn) input stack rules :
  ∀ results e,
    concatLoop f rules input stack results e = ret None
    ↔ ∃ pre r post ress,
        rules = pre ++ r :: post
        ∧ Chain f input stack e pre ress
        ∧ f r input (lastEnd e ress) stack = ret None.
Proof.
  induction rules as [|rule rest IH]; intros results e; simpl.
  - split; [discriminate|].
    intros (pre & r & post & ress & Heq & _). by destruct pre.
  - split.
    + intros H. bind_inv H. destruct a as [r1|].
      * apply IH in H as (pre & r & post & ress & -> & Hc & Hr).
        exists (rule :: pre), r, post, (r1 :: ress).
        split; [done|]. split; [by econstructor|].
        by rewrite lastEnd_cons.
      * exists [], rule, rest, []. split; [done|]. split; [constructor|done].
    + intros (pre & r & post & ress & Heq & Hc & Hr).
      destruct pre as [|r0 pre]; simpl in Heq; simplify_eq.
      * inversion Hc; subst. unfold lastEnd in Hr. simpl in Hr.
        by rewrite Hr.
      * inversion Hc as [|? ? ? r1 ress' H1 Hc']; subst.
        rewrite H1. simpl. apply IH. exists pre, r, post, ress'.
        split; [done|]. split; [done|]. by rewrite lastEnd_cons in Hr.
Qed.

(** C8: the sequence [concat(r1..rN)] invokes rule 1 at [start] and each
    later rule where its predecessor ended.  It succeeds exactly when every
    rule matches in this chain, with the list of all the values in order
    and the end offset of the last rule; it has no result exactly when some
    rule fails where the chain of its predecessors left it. *)
Theorem C8_concat_chain (f : parseFn) rs n rules input start stack :
  (∀ res,
     parseInternal_run rs f n (parseInternal (concat rules)) input start stack
     = ret (Some res)
     ↔ ∃ ress, Chain f input stack start rules ress
         ∧ length ress = length rules
         ∧ res = mkParseResult (VArray (map value ress))
                               (lastEnd start ress))
  ∧ (parseInternal_run rs f n (parseInternal (concat rules)) input start stack
     = ret None
     ↔ ∃ pre r post ress,
         rules = pre ++ r :: post
         ∧ Chain f input stack start pre ress
         ∧ f r input (lastEnd start ress) stack = ret None).
Proof.
  split.
  - intros res. simpl. rewrite concatLoop_Some. simpl.
    split.
    + intros (ress & Hc & ->). exists ress. split; [done|]. split; [|done].
      clear -Hc. induction Hc; simpl; auto.
    + intros (ress & Hc & _ & ->). eauto.
  - simpl. apply concatLoop_None.
Qed.

(** ** Repetition *)

Section RepetitionLoop.

Variables (f : parseFn) (rule : ParserRule Data)
          (sep : option (ParserRule Data))
          (input : list (Token Data)) (stack : list string).

Lemma repLoop_stop n results e :
  RepStop f rule sep input stack e →
  repLoop f (S n) rule sep input stack results e = ret (results, e).
Proof.
  intros [(s & -> & Hs)|(start' & Hsep & Hr)]; simpl.
  - by rewrite Hs.
  - destruct sep as [s|]; simpl in Hsep.
    + destruct Hsep as (sr & Hs & ->). rewrite Hs. simpl. by rewrite Hr.
    + subst start'. simpl. by rewrite Hr.
Qed.

Lemma repLoop_step n results e start' res :
  afterSep f sep input stack e start' →
  f rule input start' stack = ret (Some res) →
  repLoop f (S n) rule sep input stack results e
  = repLoop f n rule sep input stack (results ++ [value res]) (end_ res).
Proof.
  intros Hsep Hr. simpl. destruct sep as [s|]; simpl in Hsep.
  - destruct Hsep as (sr & Hs & ->). rewrite Hs. simpl. by rewrite Hr.
  - subst start'. simpl. by rewrite Hr.
Qed.

(** The loop follows the chain to its end when the budget allows. *)
Lemma repLoop_complete e ress :
  RepChain f rule sep input stack e ress →
  RepStop f rule sep input stack (lastEnd e ress) →
  ∀ n results,
    (length ress < n)%nat →
    repLoop f n rule sep input stack results e
    = ret (results ++ map value ress, lastEnd e ress).
Proof.
  induction 1 as [e|e start' res ress Hsep Hr _ IH]; intros Hstop n results
    Hn; (destruct n as [|n]; [simpl in Hn; lia|]).
  - rewrite app_nil_r. by apply repLoop_stop.
  - rewrite (repLoop_step _ _ _ _ _ Hsep Hr).
    rewrite lastEnd_cons in *. rewrite IH; [|done|simpl in Hn; lia].
    simpl. by rewrite <- app_assoc.
Qed.

(** Whatever the loop returns is the end of such a chain. *)
Lemma repLoop_sound n :
  ∀ results e results' e',
    repLoop f n rule sep input stack results e = ret (results', e') →
    ∃ ress,
      RepChain f rule sep input stack e ress
      ∧ RepStop f rule sep input stack (lastEnd e ress)
      ∧ results' = results ++ map value ress
      ∧ e' = lastEnd e ress
      ∧ (length ress < n)%nat.
Proof.
  induction n as [|n IH]; intros results e results' e' H; [discriminate|].
  simpl in H. bind_inv H.
  assert (match a with
          | Some start' => afterSep f sep input stack e start'
          | None => ∃ s, sep = Some s ∧ f s input e stack = ret None
          end) as Hsep.
  { destruct sep as [s|]; simpl.
    - bind_inv Ha. apply ret_Return_inv in Ha. subst a.
      destruct a0 as [sr|]; simpl; eauto.
    - apply ret_Return_inv in Ha. by subst a. }
  destruct a as [start'|].
  - bind_inv H. destruct a as [res|].
    + apply IH in H as (ress & Hc & Hstop & -> & -> & Hlen).
      exists (res :: ress). rewrite lastEnd_cons.
      split; [by econstructor|]. split; [done|].
      simpl. rewrite <- app_assoc. split; [done|]. split; [done|lia].
    + apply ret_Return_inv in H. simplify_eq. exists [].
      split; [constructor|]. split; [right; eauto|].
      rewrite app_nil_r. simpl. split; [done|]. split; [done|lia].
  - apply ret_Return_inv in H. simplify_eq. exists [].
    split; [constructor|]. split; [by left|]. rewrite app_nil_r.
    simpl. split; [done|]. split; [done|lia].
Qed.

Lemma repMatch_complete start ress :
  Greedy f rule sep input stack start ress →
  ∀ n, (length ress ≤ n)%nat →
    repMatch f n rule sep input start stack
    = ret (map value ress, lastEnd start ress).
Proof.
  intros Hg n Hn. unfold repMatch. destruct ress as [|res rest];
    simpl in Hg.
  - by rewrite Hg.
  - destruct Hg as (Hfirst & Hc & Hstop). rewrite Hfirst. simpl bind.
    rewrite lastEnd_cons.
    by rewrite (repLoop_complete _ _ Hc Hstop) by (simpl in Hn; lia).
Qed.

Lemma repMatch_sound n start results e :
  repMatch f n rule sep input start stack = ret (results, e) →
  ∃ ress,
    Greedy f rule sep input stack start ress
    ∧ results = map value ress
    ∧ e = lastEnd start ress
    ∧ (length ress ≤ n)%nat.
Proof.
  unfold repMatch. intros H. bind_inv H. destruct a as [res|].
  - apply repLoop_sound in H as (rest & Hc & Hstop & -> & -> & Hlen).
    exists (res :: rest). rewrite lastEnd_cons. simpl.
    repeat split; [done..|lia].
  - apply ret_Return_inv in H. simplify_eq. exists []. simpl.
    repeat split; [done|lia].
Qed.

End RepetitionLoop.

(** C5: [rep(R, min, max)] matches elements greedily; if the count is less
    than [min], or greater than [max] when [max] is defined, there is no
    result at all; otherwise the result is the list of the matched values
    in order with the end offset of the last matched element. *)
Theorem C5_rep_acceptance (f : parseFn) rs rule sep min max input start stack :
  let outcome (ress : list (ParseResult Data)) :=
    if (Z.of_nat (length ress) <? min)
       || match max with
          | Some m => m <? Z.of_nat (length ress)
          | None => false
          end
    then None
    else Some (mkParseResult (VArray (map value ress)) (lastEnd start ress)) in
  (∀ ress,
     Greedy f rule sep input stack start ress →
     ∀ n, (length ress ≤ n)%nat →
       parseInternal_run rs f n (parseInternal (rep rule sep min max))
                         input start stack
       = ret (outcome ress))
  ∧ (∀ n o,
       parseInternal_run rs f n (parseInternal (rep rule sep min max))
                         input start stack = ret o →
       ∃ ress, Greedy f rule sep input stack start ress ∧ o = outcome ress).
Proof.
  intros outcome. split.
  - intros ress Hg n Hn. simpl.
    rewrite (repMatch_complete _ _ _ _ _ _ _ Hg) by done. simpl.
    unfold repAccept, outcome. by rewrite length_map.
  - intros n o H. simpl in H. bind_inv H. destruct a as [results e].
    apply repMatch_sound in Ha as (ress & Hg & -> & -> & _).
    exists ress. split; [done|]. apply ret_Return_inv in H. subst o.
    unfold repAccept, outcome. by rewrite length_map.
Qed.

(** C4: with a separator configured, when the separator matches after the
    last matched element but the element then fails, the repetition stops
    and its end offset is the end of that last element, before the
    separator: the dangling separator is not consumed. *)
Theorem C4_dangling_separator (f : parseFn) rs rule sep min max input start
    stack first rest sepResult :
  f rule input start stack = ret (Some first) →
  RepChain f rule (Some sep) input stack (end_ first) rest →
  f sep input (lastEnd (end_ first) rest) stack = ret (Some sepResult) →
  f rule input (end_ sepResult) stack = ret None →
  ∀ n, (length rest < n)%nat →
    repMatch f n rule (Some sep) input start stack
    = ret (map value (first :: rest), lastEnd (end_ first) rest)
    ∧ parseInternal_run rs f n (parseInternal (rep rule (Some sep) min max))
                        input start stack
      = ret (repAccept min max (map value (first :: rest))
                       (lastEnd (end_ first) rest)).
Proof.
  intros Hfirst Hc Hsep Hfail n Hn.
  assert (Greedy f rule (Some sep) input stack start (first :: rest)) as Hg.
  { split; [done|]. split; [done|]. right. exists (end_ sepResult).
    split; [|done]. simpl. eauto. }
  assert (repMatch f n rule (Some sep) input start stack
          = ret (map value (first :: rest), lastEnd (end_ first) rest)) as Hm.
  { rewrite (repMatch_complete _ _ _ _ _ _ _ Hg) by (simpl; lia).
    by rewrite lastEnd_cons. }
  split; [done|]. simpl. simpl in Hm. by rewrite Hm.
Qed.

(** ** Negative lookahead *)

(** C7: [not(R)] succeeds, with end offset [start] and value [undefined],
    exactly when [R] fails at [start], and has no result exactly when [R]
    succeeds; whenever it succeeds its end offset is [start]. *)
Theorem C7_not_lookahead (f : parseFn) rs n R input start stack :
  (∀ o,
     f R input start stack = ret o →
     parseInternal_run rs f n (parseInternal (not R)) input start stack
     = ret (match o with
            | None => Some (mkParseResult VUndefined start)
            | Some _ => None
            end))
  ∧ (∀ res,
       parseInternal_run rs f n (parseInternal (not R)) input start stack
       = ret (Some res)
       ↔ f R input start stack = ret None
         ∧ res = mkParseResult VUndefined start)
  ∧ (parseInternal_run rs f n (parseInternal (not R)) input start stack
     = ret None
     ↔ ∃ res, f R input start stack = ret (Some res))
  ∧ (∀ fuel o,
       includes stack (stackItem_of (not R) start) = false →
       ParserRule_parse fuel rs R input start
                        (stack ++ [stackItem_of (not R) start]) = ret o →
       ParserRule_parse (S fuel) rs (not R) input start stack
       = ret (match o with
              | None => Some (mkParseResult VUndefined start)
              | Some _ => None
              end)).
Proof.
  split; [|split; [|split]];
    [..|intros fuel o Hg Ho; cbn [ParserRule_parse]; rewrite Hg];
    simpl; [| | |by rewrite Ho].
  - intros o ->. done.
  - intros res. split.
    + intros H. bind_inv H. apply ret_Return_inv in H.
      destruct a; simplify_eq. done.
    + intros [-> ->]. done.
  - split.
    + intros H. bind_inv H. apply ret_Return_inv in H.
      destruct a; simplify_eq. eauto.
    + intros [res ->]. done.
Qed.

(** ** The recursion guard *)






(** C10: a result returned from an offset inside the input ends inside the
    input, at or after that offset.  Every rule of the embedding is made of
    the closures of the public combinators, so this covers each of them. *)
Theorem C10_end_within_input fuel rs r input start stack res :
  0 ≤ start ≤ length_ input →
  ParserRule_parse fuel rs r input start stack = ret (Some res) →
  start ≤ end_ res ≤ length_ input.
Proof.
  revert r input start stack res.
  induction fuel as [|fuel IH]; intros r input start stack res Hstart Hres;
    [discriminate|].
  rewrite ParserRule_parse_S in Hres.
  destruct (includes stack (stackItem_of r start)); [discriminate|].
  revert Hres. by apply parseInternal_run_bounded.
Qed.

(** ** Renaming *)

(** C9, as the code has it: [withName] builds a rule with the new name and
    the parse function of the old one.  The guard of the renamed rule looks
    for, and pushes, the marker made of the new name; and whenever the
    renamed rule and the original both return, on any two stacks, they
    return the same thing. *)
Theorem C9_withName_same_results r (n : string) :
  name (withName r n) = n
  ∧ parseInternal (withName r n) = parseInternal r
  ∧ (∀ fuel rs input start stack,
       ParserRule_parse (S fuel) rs (withName r n) input start stack
       = if includes stack (marker (n, start))
         then throw (Error (loopMessage stack (marker (n, start))))
         else parseInternal_run rs (ParserRule_parse fuel rs) fuel
                (parseInternal r) input start (stack ++ [marker (n, start)]))
  ∧ (∀ fuel1 fuel2 rs input start stack1 stack2 o1 o2,
       ParserRule_parse fuel1 rs (withName r n) input start stack1 = ret o1 →
       ParserRule_parse fuel2 rs r input start stack2 = ret o2 →
       o1 = o2).
Proof.
  split; [done|]. split; [done|]. split; [done|].
  intros [|fuel1] [|fuel2] rs input start stack1 stack2 o1 o2 H1 H2;
    try discriminate.
  simpl in H1, H2.
  destruct (includes stack1 _); [discriminate|].
  destruct (includes stack2 _); [discriminate|].
  eapply parseInternal_run_agree; [apply ParserRule_parse_agree|..]; eauto.
Qed.

(** ** Termination

    Every invocation pushes its marker, a marker is never pushed twice on
    one stack, and the markers of a grammar over an input are finitely
    many: the nesting of invocations is bounded.  What remains is the loop
    of [repInternal], which ends when each turn consumes. *)

Lemma subrules_unfold r :
  subrules r = r :: flat_map subrules (children (parseInternal r)).
Proof.
  destruct r as [n c]. simpl. f_equal.
  destruct c as [rule [s|] min max| | | | | | | | | | | |]; simpl;
    by rewrite ?app_nil_r.
Qed.

Lemma subrules_self r : r ∈ subrules r.
Proof. rewrite subrules_unfold. constructor. Qed.

Lemma subrules_child r r' x :
  r' ∈ children (parseInternal r) → x ∈ subrules r' → x ∈ subrules r.
Proof.
  intros Hc Hx. rewrite subrules_unfold. right.
  apply list_elem_of_In, in_flat_map. exists r'.
  by rewrite <- !list_elem_of_In.
Qed.

Lemma Reach_subrules rs r :
  Reach rs r → ∀ x, x ∈ subrules r → x ∈ grammarRules rs.
Proof.
  induction 1 as [k r Hk|r r' _ IH Hc]; intros x Hx.
  - apply list_elem_of_In, in_flat_map. exists r.
    rewrite <- !list_elem_of_In. split; [|done].
    apply list_elem_of_In, in_map_iff. exists (k, r). split; [done|].
    by apply list_elem_of_In, elem_of_map_to_list.
  - eapply IH, subrules_child; eauto.
Qed.

Lemma ParserRule_children_ind (P : ParserRule Data → Prop) :
  (∀ r, (∀ r', r' ∈ children (parseInternal r) → P r') → P r) →
  ∀ r, P r.
Proof.
  intros H. fix IH 1. intros [n c]. apply H. simpl.
  destruct_closure c; simpl; intros r' Hr';
    try (apply list_elem_of_singleton in Hr'; rewrite Hr'; apply IH);
    try (exfalso; clear IH; by apply elem_of_nil in Hr').
  - apply elem_of_cons in Hr' as [Hr'|Hr']; [rewrite Hr'; apply IH|].
    destruct sep as [s|].
    + apply list_elem_of_singleton in Hr'. rewrite Hr'. apply IH.
    + exfalso. clear IH. by apply elem_of_nil in Hr'.
  - induction rules' as [|a l IHl].
    + exfalso. clear IH. by apply elem_of_nil in Hr'.
    + apply elem_of_cons in Hr' as [Hr'|Hr'];
        [rewrite Hr'; apply IH|exact (IHl Hr')].
  - induction options as [|a l IHl].
    + exfalso. clear IH. by apply elem_of_nil in Hr'.
    + apply elem_of_cons in Hr' as [Hr'|Hr'];
        [rewrite Hr'; apply IH|exact (IHl Hr')].
  - induction options as [|a l IHl].
    + exfalso. clear IH. by apply elem_of_nil in Hr'.
    + apply elem_of_cons in Hr' as [Hr'|Hr'];
        [rewrite Hr'; apply IH|exact (IHl Hr')].
Qed.
Lemma subrules_Reach rs r :
  Reach rs r → ∀ x, x ∈ subrules r → Reach rs x.
Proof.
  induction r as [r IH] using ParserRule_children_ind. intros Hr x Hx.
  rewrite subrules_unfold in Hx. apply elem_of_cons in Hx as [->|Hx]; [done|].
  apply list_elem_of_In, in_flat_map in Hx as (r' & Hr' & Hx).
  apply list_elem_of_In in Hr', Hx.
  eapply IH; [done|by eapply Reach_child|done].
Qed.

Lemma grammarRules_Reach rs r : r ∈ grammarRules rs → Reach rs r.
Proof.
  intros (root & Hroot & Hr)%list_elem_of_In%in_flat_map.
  apply in_map_iff in Hroot as ([k root'] & <- & Hk).
  apply list_elem_of_In, elem_of_map_to_list in Hk.
  apply list_elem_of_In in Hr.
  eapply subrules_Reach; [by eapply Reach_rule|done].
Qed.

Lemma Reach_grammarRules rs r : Reach rs r → r ∈ grammarRules rs.
Proof. intros H. eapply Reach_subrules; [done|apply subrules_self]. Qed.

Lemma elem_of_offsets input start :
  start ∈ offsets input ↔ 0 ≤ start ≤ length_ input.
Proof.
  unfold offsets, length_. rewrite list_elem_of_In, in_map_iff. split.
  - intros (i & <- & Hi%in_seq). lia.
  - intros Hs. exists (Z.to_nat start). split; [lia|]. apply in_seq. lia.
Qed.

Lemma Reach_marker rs r input start :
  Reach rs r → 0 ≤ start ≤ length_ input →
  stackItem_of r start ∈ markers rs input.
Proof.
  intros Hr Hs. apply list_elem_of_In, in_flat_map. exists r.
  split; [by apply list_elem_of_In, Reach_grammarRules|].
  apply in_map, list_elem_of_In. by apply elem_of_offsets.
Qed.

Lemma room_push rs input stack m :
  m ∈ markers rs input → m ∉ stack →
  (room rs input (stack ++ [m]) < room rs input stack)%nat.
Proof.
  unfold room. generalize (markers rs input) as l. intros l Hin Hout.
  assert (∀ l : list string,
    (length (filter (λ x, x ∉ stack ++ [m]) l)
     ≤ length (filter (λ x, x ∉ stack) l))%nat) as Hle.
  { clear. intros l. induction l as [|x l IH]; [done|].
    rewrite !filter_cons. repeat case_decide; simpl; try lia.
    set_solver. }
  induction l as [|y l IH]; [by apply elem_of_nil in Hin|].
  rewrite !filter_cons. specialize (Hle l).
  apply elem_of_cons in Hin as [<-|Hin].
  - destruct (decide (m ∉ stack ++ [m])) as [Hn|_]; [set_solver|].
    destruct (decide (m ∉ stack)); [simpl; lia|done].
  - specialize (IH Hin).
    destruct (decide (y ∉ stack ++ [m])), (decide (y ∉ stack));
      simpl; try lia. set_solver.
Qed.

Lemma uniform_budget {A} (P : nat → A → Prop) (l : list A) :
  (∀ n m x, (n ≤ m)%nat → P n x → P m x) →
  (∀ x, x ∈ l → ∃ n, P n x) →
  ∃ N, ∀ x, x ∈ l → P N x.
Proof.
  intros Hmono. induction l as [|a l IH]; intros H.
  - exists 0%nat. intros x Hx. by apply elem_of_nil in Hx.
  - destruct (H a) as [n Hn]; [constructor|].
    destruct IH as [N HN]; [intros x Hx; apply H; by constructor|].
    exists (Nat.max n N). intros x [->|Hx]%elem_of_cons.
    + eapply Hmono; [|exact Hn]. lia.
    + eapply Hmono; [|by apply HN]. lia.
Qed.

Lemma bind_is_Some {A B} (m : M A) (k : A → M B) :
  is_Some m → (∀ a, m = ret a → is_Some (k a)) → is_Some (bind m k).
Proof.
  intros [[a|e] ->] Hk; simpl; [by apply Hk|done].
Qed.

Section ClosuresTerminate.

Variables (rs : gmap string (ParserRule Data)) (input : list (Token Data))
          (stack : list string).
Variable f : ParserRule Data → list (Token Data) → Z → list string
             → M (option (ParseResult Data)).

Hypothesis f_total :
  ∀ r start, Reach rs r → 0 ≤ start ≤ length_ input →
             is_Some (f r input start stack).
Hypothesis f_bounded : bounded f.
Hypothesis f_consumes :
  ∀ n rule sep min max,
    Reach rs (mkParserRule n (repInternalFn rule sep min max)) →
    ∀ start res, f rule input start stack = ret (Some res) →
                 start < end_ res.

Lemma concatLoop_total rules :
  (∀ r, r ∈ rules → Reach rs r) →
  ∀ results e, 0 ≤ e ≤ length_ input →
    is_Some (concatLoop f rules input stack results e).
Proof.
  induction rules as [|rule rest IH]; intros Hreach results e He;
    simpl; [done|].
  apply bind_is_Some; [apply f_total; [apply Hreach; constructor|done]|].
  intros [res|] Hres; [|done].
  apply IH; [intros; apply Hreach; by constructor|].
  apply f_bounded in Hres; lia.
Qed.

Lemma orLoop_total options start :
  (∀ r, r ∈ options → Reach rs r) →
  0 ≤ start ≤ length_ input →
  is_Some (orLoop f options input start stack).
Proof.
  induction options as [|o rest IH]; intros Hreach Hs; simpl; [done|].
  apply bind_is_Some; [apply f_total; [apply Hreach; constructor|done]|].
  intros [res|] Hres; [done|].
  apply IH; [intros; apply Hreach; by constructor|done].
Qed.

Lemma orLongestLoop_total options start :
  (∀ r, r ∈ options → Reach rs r) →
  0 ≤ start ≤ length_ input →
  ∀ longest, is_Some (orLongestLoop f options input start stack longest).
Proof.
  induction options as [|o rest IH]; intros Hreach Hs longest; simpl;
    [done|].
  apply bind_is_Some; [apply f_total; [apply Hreach; constructor|done]|].
  intros result Hres.
  apply IH; [intros; apply Hreach; by constructor|done].
Qed.

(** The loop ends within as many turns as there are tokens left. *)
Lemma repLoop_total rule sep :
  Reach rs rule →
  (∀ s, sep = Some s → Reach rs s) →
  (∀ start res, f rule input start stack = ret (Some res) →
                start < end_ res) →
  ∀ n results e,
    0 ≤ e ≤ length_ input →
    (Z.to_nat (length_ input - e) < n)%nat →
    is_Some (repLoop f n rule sep input stack results e).
Proof.
  intros Hrule Hsep Hcons. induction n as [|n IH]; intros results e He Hn;
    [lia|].
  simpl. apply bind_is_Some.
  { destruct sep as [s|]; [|done].
    apply bind_is_Some; [apply f_total; auto|done]. }
  intros [start'|] Hstart'; [|done].
  assert (e ≤ start' ≤ length_ input) as Hs'.
  { destruct sep as [s|].
    - bind_inv Hstart'. apply ret_Return_inv in Hstart'.
      destruct a as [sr|]; simplify_eq/=. by apply f_bounded in Ha.
    - apply ret_Return_inv in Hstart'. simplify_eq. lia. }
  apply bind_is_Some; [apply f_total; [done|lia]|].
  intros [res|] Hres; [|done].
  pose proof (Hcons _ _ Hres). apply f_bounded in Hres; [|lia].
  apply IH; lia.
Qed.

Lemma parseInternal_run_total r start n :
  Reach rs r →
  0 ≤ start ≤ length_ input →
  (Z.to_nat (length_ input) < n)%nat →
  is_Some (parseInternal_run rs f n (parseInternal r) input start stack).
Proof.
  intros Hr Hs Hn.
  assert (∀ r', r' ∈ children (parseInternal r) → Reach rs r') as Hc.
  { intros r' Hr'. by eapply Reach_child. }
  destruct r as [nm c]. simpl in *.
  destruct_closure c; simpl in *;
    try solve [ apply bind_is_Some;
                [apply f_total; [apply Hc; constructor|done]|done] ].
  - apply bind_is_Some; [|by intros [results e] _].
    unfold repMatch.
    apply bind_is_Some; [apply f_total; [apply Hc; constructor|done]|].
    intros [res|] Hres; [|done].
    apply repLoop_total.
    + apply Hc. constructor.
    + intros s ->. apply Hc. right. constructor.
    + by eapply f_consumes.
    + apply f_bounded in Hres; lia.
    + apply f_bounded in Hres; lia.
  - by apply concatLoop_total.
  - by apply orLoop_total.
  - by apply orLongestLoop_total.
  - repeat case_match; done.
  - destruct (rs !! k) as [r'|] eqn:Hk; [|done].
    apply f_total; [by eapply Reach_rule|done].
Qed.

End ClosuresTerminate.

(** Every invocation of a rule of the grammar at an offset of the input
    returns or throws, provided the repetitions consume. *)
Lemma ParserRule_parse_total rs input :
  repetitionsConsume rs input →
  ∀ k stack, (room rs input stack ≤ k)%nat →
  ∀ r start, Reach rs r → 0 ≤ start ≤ length_ input →
  ∃ fuel, is_Some (ParserRule_parse fuel rs r input start stack).
Proof.
  intros Hcons. induction k as [|k IH]; intros stack Hroom r start Hr Hs.
  all: destruct (includes stack (stackItem_of r start)) eqn:Hguard;
    [exists 1%nat; simpl; by rewrite Hguard|].
  all: apply bool_decide_eq_false in Hguard.
  all: pose proof (room_push rs input stack _ (Reach_marker _ _ _ _ Hr Hs)
                     Hguard) as Hlt.
  { lia. }
  set (stack' := stack ++ [stackItem_of r start]) in *.
  destruct (uniform_budget
              (λ n (x : ParserRule Data * Z),
                 is_Some (ParserRule_parse n rs x.1 input x.2 stack'))
              (list_prod (grammarRules rs) (offsets input))) as [N HN].
  { intros n m x Hnm [c Hc]. exists c.
    by eapply ParserRule_parse_reaches. }
  { intros [r' s'] [Hr' Hs']%list_elem_of_In%in_prod_iff. simpl.
    apply list_elem_of_In, elem_of_offsets in Hs'.
    apply list_elem_of_In, grammarRules_Reach in Hr'.
    apply IH; [lia|done..]. }
  set (F := Nat.max N (S (Z.to_nat (length_ input)))).
  exists (S F). rewrite ParserRule_parse_S.
  replace (includes _ _) with false
    by (symmetry; by apply bool_decide_eq_false).
  apply parseInternal_run_total; [| | |done..|unfold F; lia].
  - intros r' s' Hr' Hs'.
    destruct (HN (r', s')) as [c Hc].
    { apply list_elem_of_In, in_prod_iff.
      split; apply list_elem_of_In;
        [by apply Reach_grammarRules|by apply elem_of_offsets]. }
    exists c. eapply ParserRule_parse_reaches; [|exact Hc]. unfold F; lia.
  - apply ParserRule_parse_bounded.
  - intros n rule sep min max Hrep s' res. apply Hcons in Hrep.
    apply Hrep.
Qed.

(** A rule of the grammar, invoked at an offset of the input on any stack,
    returns or throws when the repetitions of the grammar consume. *)
Theorem ParserRule_parse_terminates rs input r start stack :
  repetitionsConsume rs input →
  Reach rs r →
  0 ≤ start ≤ length_ input →
  ∃ fuel, is_Some (ParserRule_parse fuel rs r input start stack).
Proof.
  intros Hcons Hr Hs.
  by eapply (ParserRule_parse_total rs input Hcons (room rs input stack)).
Qed.

Lemma rootsLoop_total fuel (p : Parser Data) input :
  (∀ r, r ∈ grammarRules (rules p) →
        is_Some (ParserRule_parse fuel (rules p) r input 0 [])) →
  ∀ todo best, is_Some (rootsLoop fuel p todo input best).
Proof.
  intros Hall. induction todo as [|root rest IH]; intros best; simpl; [done|].
  destruct (rules p !! root) as [r|] eqn:Hroot; [|done].
  apply bind_is_Some; [|intros; apply IH].
  apply Hall, Reach_grammarRules. by eapply Reach_rule.
Qed.

(** The top-level parse returns or throws when the repetitions of the
    grammar consume. *)
Theorem Parser_parse_terminates (json : option (Token Data) → string)
    (p : Parser Data) input :
  repetitionsConsume (rules p) input →
  ∃ fuel, is_Some (Parser_parse json fuel p input).
Proof.
  intros Hcons.
  destruct (uniform_budget
              (λ n r, is_Some (ParserRule_parse n (rules p) r input 0 []))
              (grammarRules (rules p))) as [N HN].
  { intros n m x Hnm [c Hc]. exists c.
    by eapply ParserRule_parse_reaches. }
  { intros r Hr%grammarRules_Reach.
    apply ParserRule_parse_terminates; [done..|]. unfold length_. lia. }
  exists N. unfold Parser_parse. apply bind_is_Some.
  - by apply rootsLoop_total.
  - intros [res|] _; [|done]. by destruct (end_ res <? length_ input).
Qed.

(** A token rule consumes when it matches. *)
Lemma token_consumes fuel rs n k input start stack res :
  ParserRule_parse fuel rs (mkParserRule n (tokenFn k)) input start stack
  = ret (Some res) →
  start < end_ res.
Proof.
  destruct fuel as [|fuel]; [discriminate|]. rewrite ParserRule_parse_S.
  destruct (includes _ _); [discriminate|]. simpl.
  repeat case_match; intros [=]; subst; simpl; lia.
Qed.

(** ** The exceptions of a parse *)

Lemma bind_Throw_inv {A B} (m : M A) (k : A → M B) e :
  bind m k = Some (Throw e) →
  m = Some (Throw e) ∨ ∃ a, m = Some (Return a) ∧ k a = Some (Throw e).
Proof. destruct m as [[a|e']|]; simpl; [eauto| |discriminate].
  intros [= ->]. by left. Qed.

Section ClosuresThrow.

Variables (rs : gmap string (ParserRule Data)) (input : list (Token Data)).
Variable f : ParserRule Data → list (Token Data) → Z → list string
             → M (option (ParseResult Data)).

Hypothesis rs_registered : subsRegistered rs.
Hypothesis f_bounded : bounded f.
Hypothesis f_throws :
  ∀ r start stack e, Reach rs r → 0 ≤ start ≤ length_ input →
                     f r input start stack = throw e → isLoop e.

Lemma concatLoop_throws stack rules :
  (∀ r, r ∈ rules → Reach rs r) →
  ∀ results e' e, 0 ≤ e' ≤ length_ input →
    concatLoop f rules input stack results e' = throw e → isLoop e.
Proof.
  induction rules as [|rule rest IH]; intros Hreach results e' e He H;
    simpl in H; [discriminate|].
  apply bind_Throw_inv in H as [H|(a & Ha & H)].
  - eapply f_throws; [apply Hreach; constructor|done..].
  - destruct a as [res|]; [|discriminate].
    eapply IH; [intros; apply Hreach; by constructor| |done].
    apply f_bounded in Ha; lia.
Qed.

Lemma orLoop_throws stack options start e :
  (∀ r, r ∈ options → Reach rs r) →
  0 ≤ start ≤ length_ input →
  orLoop f options input start stack = throw e → isLoop e.
Proof.
  induction options as [|o rest IH]; intros Hreach Hs H; simpl in H;
    [discriminate|].
  apply bind_Throw_inv in H as [H|(a & Ha & H)].
  - eapply f_throws; [apply Hreach; constructor|done..].
  - destruct a as [res|]; [discriminate|].
    apply IH; [intros; apply Hreach; by constructor|done..].
Qed.

Lemma orLongestLoop_throws' stack options start e :
  (∀ r, r ∈ options → Reach rs r) →
  0 ≤ start ≤ length_ input →
  ∀ longest,
    orLongestLoop f options input start stack longest = throw e → isLoop e.
Proof.
  induction options as [|o rest IH]; intros Hreach Hs longest H; simpl in H;
    [discriminate|].
  apply bind_Throw_inv in H as [H|(a & Ha & H)].
  - eapply f_throws; [apply Hreach; constructor|done..].
  - eapply IH; [intros; apply Hreach; by constructor|done..].
Qed.

Lemma repLoop_throws stack rule sep :
  Reach rs rule →
  (∀ s, sep = Some s → Reach rs s) →
  ∀ n results e' e,
    0 ≤ e' ≤ length_ input →
    repLoop f n rule sep input stack results e' = throw e → isLoop e.
Proof.
  intros Hrule Hsep. induction n as [|n IH]; intros results e' e He H;
    [discriminate|].
  simpl in H. apply bind_Throw_inv in H as [H|(a & Ha & H)].
  { destruct sep as [s|]; [|discriminate].
    apply bind_Throw_inv in H as [H|(a & Ha & H)]; [|discriminate].
    eapply f_throws; [by apply Hsep|done..]. }
  destruct a as [start'|]; [|discriminate].
  assert (e' ≤ start' ≤ length_ input) as Hs'.
  { destruct sep as [s|].
    - bind_inv Ha. apply ret_Return_inv in Ha.
      destruct a as [sr|]; simplify_eq/=. by apply f_bounded in Ha0.
    - apply ret_Return_inv in Ha. simplify_eq. lia. }
  apply bind_Throw_inv in H as [H|(a & Ha' & H)].
  - eapply f_throws; [done| |done]. lia.
  - destruct a as [res|]; [|discriminate].
    apply f_bounded in Ha'; [|lia]. eapply IH; [|done]. lia.
Qed.

Lemma parseInternal_run_throws n r start stack e :
  Reach rs r →
  0 ≤ start ≤ length_ input →
  parseInternal_run rs f n (parseInternal r) input start stack = throw e →
  isLoop e.
Proof.
  intros Hr Hs H.
  assert (∀ r', r' ∈ children (parseInternal r) → Reach rs r') as Hc.
  { intros r' Hr'. by eapply Reach_child. }
  destruct r as [nm c]. simpl in *.
  destruct_closure c; simpl in *;
    try solve [ apply bind_Throw_inv in H as [H|(a & Ha & H)];
                [eapply f_throws; [apply Hc; constructor|done..]
                |discriminate] ].
  - apply bind_Throw_inv in H as [H|([results e'] & Ha & H)];
      [|discriminate].
    unfold repMatch in H. apply bind_Throw_inv in H as [H|(a & Ha & H)].
    + eapply f_throws; [apply Hc; constructor|done..].
    + destruct a as [res|]; [|discriminate].
      eapply repLoop_throws; [apply Hc; constructor| | |done].
      * intros s ->. apply Hc. right. constructor.
      * apply f_bounded in Ha; lia.
  - by eapply concatLoop_throws.
  - by eapply orLoop_throws.
  - by eapply orLongestLoop_throws'.
  - destruct (Z.leb_spec (length_ input) start); [discriminate|].
    unfold at_ in H. rewrite decide_True in H by lia.
    destruct (lookup_lt_is_Some_2 input (Z.to_nat start)) as [tok Ht].
    { unfold length_ in *. lia. }
    rewrite Ht in H. by case_match.
  - destruct (rs_registered _ _ Hr) as [r' Hr']. rewrite Hr' in H.
    eapply f_throws; [by eapply Reach_rule|done..].
Qed.

End ClosuresThrow.

(** The only exception an invocation of a rule of the grammar throws is
    the loop error. *)
Lemma ParserRule_parse_throws rs input :
  subsRegistered rs →
  ∀ fuel r start stack e,
    Reach rs r → 0 ≤ start ≤ length_ input →
    ParserRule_parse fuel rs r input start stack = throw e → isLoop e.
Proof.
  intros Hreg. induction fuel as [|fuel IH]; intros r start stack e Hr Hs H;
    [discriminate|].
  rewrite ParserRule_parse_S in H.
  destruct (includes stack (stackItem_of r start)).
  - injection H as <-. by eexists _, _.
  - eapply parseInternal_run_throws; eauto using ParserRule_parse_bounded.
Qed.

Lemma rootsLoop_throws fuel (p : Parser Data) input :
  subsRegistered (rules p) →
  ∀ todo best e,
    (∀ root, root ∈ todo → is_Some (rules p !! root)) →
    rootsLoop fuel p todo input best = throw e → isLoop e.
Proof.
  intros Hreg. induction todo as [|root rest IH]; intros best e Hroots H;
    simpl in H; [discriminate|].
  destruct (Hroots root) as [r Hr]; [constructor|]. rewrite Hr in H.
  apply bind_Throw_inv in H as [H|(a & Ha & H)].
  - eapply ParserRule_parse_throws; [done|by eapply Reach_rule| |done].
    unfold length_. lia.
  - eapply IH; [|done]. intros; apply Hroots; by constructor.
Qed.

Lemma rootsLoop_bounded fuel (p : Parser Data) input :
  ∀ todo best res,
    (∀ b, best = Some b → 0 ≤ end_ b ≤ length_ input) →
    rootsLoop fuel p todo input best = ret (Some res) →
    0 ≤ end_ res ≤ length_ input.
Proof.
  induction todo as [|root rest IH]; intros best res Hbest H; simpl in H.
  - apply ret_Return_inv in H. auto.
  - destruct (rules p !! root) as [r|]; [|discriminate].
    bind_inv H. eapply IH; [|done].
    intros b Hb. destruct a as [res'|]; simpl in Hb; [|auto].
    apply ParserRule_parse_bounded in Ha; [|unfold length_; lia].
    destruct best as [b0|]; [|by simplify_eq].
    case_match; simplify_eq; auto.
Qed.

(** X20: when the repetitions of the grammar consume and every name the
    grammar uses is registered, the top-level parse ends, in one of four
    ways: a value, the loop error, "Failed to parse", or "Not all tokens
    were consumed" with a token of the input. *)
Theorem Parser_parse_outcomes (json : option (Token Data) → string)
    (p : Parser Data) input :
  repetitionsConsume (rules p) input →
  subsRegistered (rules p) →
  (∀ root, root ∈ roots p → is_Some (rules p !! root)) →
  ∃ fuel,
    (∃ v, Parser_parse json fuel p input = ret v)
    ∨ (∃ e, isLoop e ∧ Parser_parse json fuel p input = throw e)
    ∨ Parser_parse json fuel p input = throw (Error "Failed to parse")
    ∨ (∃ tok, tok ∈ input
         ∧ Parser_parse json fuel p input
           = throw (Error ("Not all tokens were consumed: "
                             +:+ json (Some tok)))).
Proof.
  intros Hcons Hreg Hroots.
  destruct (Parser_parse_terminates json p input Hcons) as (fuel & c & Hc).
  exists fuel. destruct c as [v|e]; [left; eauto|right].
  unfold Parser_parse in *.
  apply bind_Throw_inv in Hc as [Hc|(best & Hbest & Hc)].
  { left. exists e. rewrite Hc. split; [|done].
    by eapply rootsLoop_throws. }
  rewrite Hbest. simpl. right. destruct best as [res|]; [|by left].
  right. apply rootsLoop_bounded in Hbest; [|done].
  destruct (Z.ltb_spec (end_ res) (length_ input)); [|discriminate].
  destruct (lookup_lt_is_Some_2 input (Z.to_nat (end_ res))) as [tok Ht].
  { unfold length_ in *. lia. }
  exists tok. split; [by eapply list_elem_of_lookup_2|].
  unfold at_. rewrite decide_True by lia. by rewrite Ht.
Qed.

(** ** A repetition whose element never fails *)

Lemma repLoop_never_stops (f : parseFn) rule input stack (P : Z → Prop) :
  (∀ start, P start →
     f rule input start stack = None
     ∨ ∃ res, f rule input start stack = ret (Some res) ∧ P (end_ res)) →
  ∀ n results e, P e → repLoop f n rule None input stack results e = None.
Proof.
  intros Hf. induction n as [|n IH]; intros results e He; [done|].
  simpl. destruct (Hf e He) as [->|(res & -> & Hres)]; [done|].
  simpl. by apply IH.
Qed.

End Properties.

(** * The engine on concrete grammars *)

Section Concrete.

Import Examples.

(** ** The end-to-end examples of the specification *)

Example digits_ok :
  Parser_parse json 10 digits [tok "digit"; tok "digit"; tok "digit"]
  = ret (VArray [VData "digit"; VData "digit"; VData "digit"]).
Proof. vm_compute. reflexivity. Qed.

Example digits_trailing :
  Parser_parse json 10 digits [tok "digit"; tok "digit"; tok "letter"]
  = throw (Error "Not all tokens were consumed: {'key':'letter'}").
Proof. vm_compute. reflexivity. Qed.

Example digits_empty :
  Parser_parse json 10 digits [] = throw (Error "Failed to parse").
Proof. vm_compute. reflexivity. Qed.

Example names :
  name (@first string (token "a") (star (token "b") (Some (token "c"))) [])
  = "first(token(a), star(token(b), token(c)))"
  ∧ name (@rep string (token "a") None 2 (Some 3)) = "rep(token(a), 2, 3)"
  ∧ name (@plus string (token "a") None) = "plus(token(a))".
Proof. vm_compute. auto. Qed.

Example selfRef_loops :
  Parser_parse json 10 selfRef []
  = throw (Error (loopMessage ["a:0"] "a:0")).
Proof. vm_compute. reflexivity. Qed.

Example orLongest_tie :
  ParserRule_parse 5 ∅ (orLongest [map_ two (λ _, VData "first"); two])
                   [tok "x"; tok "x"] 0 []
  = ret (Some (mkParseResult (VData "first") 2)).
Proof. vm_compute. reflexivity. Qed.

(** The element of [starOpt] never fails and never throws: it returns, or
    the budget is too small. *)
Lemma starOpt_element fuel (rs : gmap string (ParserRule string)) input start :
  0 ≤ start →
  ParserRule_parse fuel rs (opt (token "A")) input start ["r:0"] = None
  ∨ ∃ res, ParserRule_parse fuel rs (opt (token "A")) input start ["r:0"]
           = ret (Some res) ∧ 0 ≤ end_ res.
Proof.
  intros Hs. destruct fuel as [|[|fuel]]; [by left| |].
  - left. rewrite ParserRule_parse_S.
    destruct (includes _ _) eqn:Hg; [|done].
    by apply bool_decide_eq_true, list_elem_of_singleton in Hg.
  - right. rewrite ParserRule_parse_S.
    destruct (includes _ _) eqn:Hg.
    { by apply bool_decide_eq_true, list_elem_of_singleton in Hg. }
    clear Hg. cbn [parseInternal opt parseInternal_run].
    rewrite ParserRule_parse_S.
    destruct (includes _ _) eqn:Hg.
    { apply bool_decide_eq_true in Hg.
      by apply elem_of_cons in Hg as [?|?%list_elem_of_singleton]. }
    clear Hg. cbn [parseInternal token parseInternal_run].
    destruct (Z.leb_spec (length_ input) start).
    { simpl. eexists. split; [done|]. simpl. lia. }
    unfold at_. rewrite decide_True by done.
    destruct (lookup_lt_is_Some_2 input (Z.to_nat start)) as [tok ->].
    { unfold length_ in *. lia. }
    destruct (key tok =? "A")%string; simpl; eexists; (split; [done|]);
      simpl; lia.
Qed.

Lemma starOpt_root_spins fuel (rs : gmap string (ParserRule string)) input :
  ParserRule_parse fuel rs
    (mkParserRule "r" (repInternalFn (opt (token "A")) None 0 None))
    input 0 [] = None.
Proof.
  destruct fuel as [|fuel]; [done|]. rewrite ParserRule_parse_S.
  replace (includes _ _) with false by done.
  cbn [parseInternal parseInternal_run]. unfold repMatch.
  change ([] ++ [stackItem_of _ 0]) with ["r:0"].
  destruct (starOpt_element fuel rs input 0) as [->|(res & -> & Hres)];
    [done..|].
  simpl.
  rewrite (repLoop_never_stops _ _ _ _ (λ e, 0 ≤ e)); [done| |done].
  intros start Hstart. by apply starOpt_element.
Qed.

(** The digits grammar terminates on every input. *)
Lemma digits_repetitionsConsume input : repetitionsConsume (rules digits) input.
Proof.
  intros n rule sep min max Hr%Reach_grammarRules fuel start stack res.
  vm_compute in Hr.
  apply elem_of_cons in Hr as [[= -> -> -> -> ->]|Hr].
  - apply token_consumes.
  - apply elem_of_cons in Hr as [[=]|Hr]. by apply elem_of_nil in Hr.
Qed.

Lemma digits_terminates input :
  ∃ fuel, is_Some (Parser_parse json fuel digits input).
Proof. apply Parser_parse_terminates, digits_repetitionsConsume. Qed.

(** C1, where it fails: the grammar whose root is [star(opt(token(A)))]
    does not terminate, on any input.  Its element always matches, if only
    the empty sequence; the loop of [repInternal] calls it again and again
    with the same stack, so the guard never sees a repeated marker: no
    budget is enough for [Parser.parse] to return or to throw. *)
Theorem C1_star_opt_never_returns (json : option (Token string) → string)
    (input : list (Token string)) (fuel : nat) :
  Parser_parse json fuel starOpt input = None.
Proof.
  unfold Parser_parse.
  replace (roots starOpt) with ["r"] by reflexivity.
  cbn [rootsLoop].
  replace (rules starOpt !! "r")
    with (Some (mkParserRule (Data:=string) "r"
                  (repInternalFn (opt (token "A")) None 0 None)))
    by (vm_compute; reflexivity).
  by rewrite starOpt_root_spins.
Qed.

(** ** The general theorems at concrete inputs *)


Lemma C3_top_level_parse_witness :
  let input := [tok "digit"; tok "digit"; tok "letter"] in
  let res := mkParseResult (VArray [VData "digit"; VData "digit"]) 2 in
  Forall2 (λ root out, ∃ r, rules digits !! root = Some r
             ∧ ParserRule_parse 10 (rules digits) r input 0 [] = ret out)
          (roots digits) [Some res]
  ∧ Parser_parse json 10 digits input
    = throw (Error ("Not all tokens were consumed: "
                      +:+ json (Some (tok "letter")))).
Proof.
  intros input res.
  assert (Forall2 (λ root out, ∃ r, rules digits !! root = Some r
                     ∧ ParserRule_parse 10 (rules digits) r input 0 []
                       = ret out)
                  (roots digits) [Some res]) as Hroots.
  { constructor; [|constructor].
    eexists. split; [vm_compute; reflexivity|vm_compute; reflexivity]. }
  split; [exact Hroots|].
  assert (firstLongest [Some res] (Some res)) as Hsel.
  { clear. exists 0%nat. split; [reflexivity|]. split.
    - intros [|j] b' [=]; subst; lia.
    - intros [|j] b' Hlt [=]; subst; lia. }
  destruct (C3_top_level_parse json 10 digits input _ Hroots)
    as (sel & _ & Huniq & Hrun & _).
  rewrite Hrun, <- (Huniq (Some res) Hsel). vm_compute. reflexivity.
Defined.

Lemma C4_dangling_separator_witness :
  ParserRule_parse 4 ∅ listA [tok "A"; tok "SEP"] 0 []
  = ret (Some (mkParseResult (VArray [VData "A"]) 1)).
Proof.
  rewrite ParserRule_parse_S.
  replace (includes _ _) with false by (vm_compute; reflexivity).
  refine (proj2 (C4_dangling_separator (ParserRule_parse 3 ∅) ∅
                   (token "A") (token "SEP") 0 None [tok "A"; tok "SEP"] 0 _
                   (mkParseResult (VData "A") 1) []
                   (mkParseResult (VData "SEP") 2) _ _ _ _ 3%nat _)).
  - vm_compute. reflexivity.
  - constructor.
  - vm_compute. reflexivity.
  - vm_compute. reflexivity.
  - simpl. lia.
Defined.

Lemma C5_rep_acceptance_witness :
  let f := ParserRule_parse 3 (∅ : gmap string (ParserRule string)) in
  let input := [tok "digit"; tok "digit"; tok "digit"] in
  let ress := [mkParseResult (VData "digit") 1;
               mkParseResult (VData "digit") 2;
               mkParseResult (VData "digit") 3] in
  Greedy f (token "digit") None input [] 0 ress
  ∧ parseInternal_run ∅ f 3
      (parseInternal (rep (token "digit") None 1 (Some 2))) input 0 []
    = ret None
  ∧ parseInternal_run ∅ f 3
      (parseInternal (rep (token "digit") None 1 (Some 3))) input 0 []
    = ret (Some (mkParseResult
                   (VArray [VData "digit"; VData "digit"; VData "digit"]) 3)).
Proof.
  intros f input ress.
  assert (Greedy f (token "digit") None input [] 0 ress) as Hg.
  { split; [vm_compute; reflexivity|]. split.
    - repeat (eapply RepChain_cons;
              [simpl; reflexivity|vm_compute; reflexivity|]).
      constructor.
    - right. exists 3. split; [reflexivity|]. vm_compute. reflexivity. }
  split; [exact Hg|]. split.
  - exact (proj1 (C5_rep_acceptance f ∅ (token "digit") None 1 (Some 2)
                    input 0 []) ress Hg 3%nat (le_n 3)).
  - exact (proj1 (C5_rep_acceptance f ∅ (token "digit") None 1 (Some 3)
                    input 0 []) ress Hg 3%nat (le_n 3)).
Defined.

Lemma C6_orLongest_selects_witness :
  let f := ParserRule_parse 3 (∅ : gmap string (ParserRule string)) in
  let input := [tok "x"; tok "x"; tok "x"] in
  let outs :=
    [Some (mkParseResult (VArray [VData "x"; VData "x"]) 2);
     Some (mkParseResult (VArray [VData "x"; VData "x"; VData "x"]) 3)] in
  Forall2 (λ o out, f o input 0 [] = ret out) [two; three] outs
  ∧ parseInternal_run ∅ f 0 (parseInternal (orLongest [two; three]))
                      input 0 []
    = ret (Some (mkParseResult (VArray [VData "x"; VData "x"; VData "x"]) 3)).
Proof.
  intros f input outs.
  assert (Forall2 (λ o out, f o input 0 [] = ret out) [two; three] outs)
    as Houts.
  { repeat constructor; vm_compute; reflexivity. }
  split; [exact Houts|].
  assert (firstLongest outs (outs !!! 1%nat)) as Hsel.
  { clear. exists 1%nat. split; [reflexivity|]. split.
    - intros [|[|j]] b' [=]; subst; simpl; lia.
    - intros [|[|j]] b' Hlt [=]; subst; simpl; lia. }
  destruct (proj1 (C6_orLongest_selects f ∅ 0 [two; three] input 0 [])
              outs Houts) as (sel & Hrun & _ & Huniq & _).
  rewrite Hrun, <- (Huniq _ Hsel). reflexivity.
Defined.

Lemma C7_not_lookahead_witness :
  ParserRule_parse 1 ∅ (token "A") [tok "B"] 0 ["not(token(A)):0"] = ret None
  ∧ ParserRule_parse 2 ∅ (not (token "A")) [tok "B"] 0 []
    = ret (Some (mkParseResult VUndefined 0))
  ∧ ParserRule_parse 2 ∅ (not (token "B")) [tok "B"] 0 [] = ret None.
Proof.
  split; [vm_compute; reflexivity|]. split.
  - refine (proj2 (proj2 (proj2 (C7_not_lookahead (ParserRule_parse 0 ∅) ∅
              0 (token "A") [tok "B"] 0 []))) 1%nat None _ _);
      vm_compute; reflexivity.
  - refine (proj2 (proj2 (proj2 (C7_not_lookahead (ParserRule_parse 0 ∅) ∅
              0 (token "B") [tok "B"] 0 []))) 1%nat
              (Some (mkParseResult (VData "B") 1)) _ _);
      vm_compute; reflexivity.
Defined.

Lemma C8_concat_chain_witness :
  let f := ParserRule_parse 1 (∅ : gmap string (ParserRule string)) in
  Chain f [tok "a"; tok "b"] [] 0 [token "a"; token "b"]
        [mkParseResult (VData "a") 1; mkParseResult (VData "b") 2]
  ∧ parseInternal_run ∅ f 0 (parseInternal (concat [token "a"; token "b"]))
                      [tok "a"; tok "b"] 0 []
    = ret (Some (mkParseResult (VArray [VData "a"; VData "b"]) 2))
  ∧ parseInternal_run ∅ f 0 (parseInternal (concat [token "a"; token "b"]))
                      [tok "a"; tok "c"] 0 []
    = ret None.
Proof.
  intros f.
  assert (Chain f [tok "a"; tok "b"] [] 0 [token "a"; token "b"]
                [mkParseResult (VData "a") 1; mkParseResult (VData "b") 2])
    as Hc.
  { repeat (econstructor; [vm_compute; reflexivity|]). constructor. }
  split; [exact Hc|]. split.
  - apply (proj1 (C8_concat_chain f ∅ 0 [token "a"; token "b"]
                    [tok "a"; tok "b"] 0 [])).
    eexists. split; [exact Hc|]. split; reflexivity.
  - apply (proj2 (C8_concat_chain f ∅ 0 [token "a"; token "b"]
                    [tok "a"; tok "c"] 0 [])).
    exists [token "a"], (token "b"), [], [mkParseResult (VData "a") 1].
    split; [reflexivity|]. split; [|vm_compute; reflexivity].
    econstructor; [vm_compute; reflexivity|constructor].
Defined.

(** C9 as stated fails: a stack that holds the marker of the old name
    stops the original rule and lets the renamed one through. *)
Lemma C9_counterexample :
  ParserRule_parse 1 ∅ (token "A") [tok "A"] 0 ["token(A):0"]
  = throw (Error (loopMessage ["token(A):0"] "token(A):0"))
  ∧ ParserRule_parse 1 ∅ (withName (token "A") "x") [tok "A"] 0
                     ["token(A):0"]
    = ret (Some (mkParseResult (VData "A") 1))
  ∧ ¬ (∀ (r : ParserRule string) (n : string) fuel rs input start stack,
         ParserRule_parse fuel rs (withName r n) input start stack
         = ParserRule_parse fuel rs r input start stack).
Proof.
  split; [vm_compute; reflexivity|]. split; [vm_compute; reflexivity|].
  intros H.
  specialize (H (token "A") "x" 1%nat ∅ [tok "A"] 0 ["token(A):0"]).
  vm_compute in H. discriminate.
Qed.

Lemma C9_withName_same_results_witness :
  ParserRule_parse 1 ∅ (withName (token "A") "x") [tok "A"] 0
                   ["token(A):0"]
  = ret (Some (mkParseResult (VData "A") 1))
  ∧ ParserRule_parse 1 ∅ (token "A") [tok "A"] 0 ["x:0"]
    = ret (Some (mkParseResult (VData "A") 1))
  ∧ Some (mkParseResult (VData "A") 1)
    = Some (mkParseResult (Data:=string) (VData "A") 1).
Proof.
  assert (ParserRule_parse 1 ∅ (withName (token "A") "x") [tok "A"] 0
            ["token(A):0"] = ret (Some (mkParseResult (VData "A") 1))) as H1.
  { vm_compute. reflexivity. }
  assert (ParserRule_parse 1 ∅ (token "A") [tok "A"] 0 ["x:0"]
          = ret (Some (mkParseResult (VData "A") 1))) as H2.
  { vm_compute. reflexivity. }
  split; [exact H1|]. split; [exact H2|].
  exact (proj2 (proj2 (proj2 (C9_withName_same_results (token "A") "x")))
           1%nat 1%nat ∅ [tok "A"] 0 _ _ _ _ H1 H2).
Defined.

Lemma C10_end_within_input_witness :
  let r := first (token "A") (star (token "B") None) [] in
  let input := [tok "A"; tok "B"; tok "B"] in
  0 ≤ 0 ≤ length_ input
  ∧ ParserRule_parse 5 ∅ r input 0 []
    = ret (Some (mkParseResult (VData "A") 3))
  ∧ 0 ≤ 3 ≤ length_ input.
Proof.
  intros r input.
  assert (0 ≤ 0 ≤ length_ input) as Hs by (vm_compute; split; discriminate).
  assert (ParserRule_parse 5 ∅ r input 0 []
          = ret (Some (mkParseResult (VData "A") 3))) as Hr.
  { vm_compute. reflexivity. }
  split; [exact Hs|]. split; [exact Hr|].
  exact (C10_end_within_input 5 ∅ r input 0 [] _ Hs Hr).
Defined.

End Concrete.

(** * More of the engine *)

Section Coverage.

Context {Data : Type}.
Implicit Types (r rule : ParserRule Data) (input : list (Token Data)).
Implicit Types (rs : gmap string (ParserRule Data)).
Implicit Types (start : Z) (stack : list string).

Local Abbreviation parseFn :=
  (ParserRule Data → list (Token Data) → Z → list string
   → M (option (ParseResult Data))).

(** ** Ordered choice *)

Lemma orLoop_skips (f : parseFn) input start stack pre rest :
  Forall (λ o, f o input start stack = ret None) pre →
  orLoop f (pre ++ rest) input start stack = orLoop f rest input start stack.
Proof.
  induction 1 as [|o pre Ho _ IH]; simpl; [done|]. by rewrite Ho.
Qed.

Lemma orLoop_inv (f : parseFn) input start stack options c :
  orLoop f options input start stack = Some c →
  (c = Return None
   ∧ Forall (λ o, f o input start stack = ret None) options)
  ∨ ∃ pre o post,
      options = pre ++ o :: post
      ∧ Forall (λ o', f o' input start stack = ret None) pre
      ∧ ((∃ res, c = Return (Some res)
                 ∧ f o input start stack = ret (Some res))
         ∨ (∃ e, c = Throw e ∧ f o input start stack = throw e)).
Proof.
  revert c. induction options as [|o rest IH]; intros c H; simpl in H.
  - left. split; [by injection H|constructor].
  - destruct (f o input start stack) as [[[res|]|e]|] eqn:Ho; simpl in H;
      [| |injection H as <-|discriminate].
    + injection H as <-. right. exists [], o, rest.
      split; [done|]. split; [constructor|]. left. eauto.
    + destruct (IH _ H) as [[-> Hall]|(pre & o' & post & -> & Hpre & Hc)].
      * left. split; [done|]. by constructor.
      * right. exists (o :: pre), o', post. split; [done|].
        split; [by constructor|done].
    + right. exists [], o, rest.
      split; [done|]. split; [constructor|]. right. eauto.
Qed.

(** X1: [or] returns the result of the first option that matches and does
    not run the options after it; it has no result exactly when every
    option fails; an exception surfaces only from an option that all the
    earlier ones let through. *)
Theorem X1_or_first_match (f : parseFn) rs n options input start stack :
  (∀ res,
     parseInternal_run rs f n (parseInternal (or options)) input start stack
     = ret (Some res)
     ↔ ∃ pre o post,
         options = pre ++ o :: post
         ∧ Forall (λ o', f o' input start stack = ret None) pre
         ∧ f o input start stack = ret (Some res))
  ∧ (parseInternal_run rs f n (parseInternal (or options)) input start stack
     = ret None
     ↔ Forall (λ o, f o input start stack = ret None) options)
  ∧ (∀ e,
       parseInternal_run rs f n (parseInternal (or options)) input start stack
       = throw e
       ↔ ∃ pre o post,
           options = pre ++ o :: post
           ∧ Forall (λ o', f o' input start stack = ret None) pre
           ∧ f o input start stack = throw e).
Proof.
  simpl. split; [|split].
  - intros res. split.
    + intros H. apply orLoop_inv in H
        as [[[=] _]|(pre & o & post & -> & Hpre & [(res' & [= <-] & Ho)
                                                  |(e & [=] & _)])].
      eauto 6.
    + intros (pre & o & post & -> & Hpre & Ho).
      rewrite orLoop_skips by done. simpl. by rewrite Ho.
  - split.
    + intros H. apply orLoop_inv in H
        as [[_ Hall]|(pre & o & post & -> & Hpre & [(res' & [=] & Ho)
                                                   |(e & [=] & _)])].
      done.
    + intros Hall. rewrite <- (app_nil_r options).
      by rewrite orLoop_skips.
  - intros e. split.
    + intros H. apply orLoop_inv in H
        as [[[=] _]|(pre & o & post & -> & Hpre & [(res' & [=] & Ho)
                                                  |(e' & [= <-] & Ho)])].
      eauto 6.
    + intros (pre & o & post & -> & Hpre & Ho).
      rewrite orLoop_skips by done. simpl. by rewrite Ho.
Qed.

(** X2: when every option returns, [or] and [orLongest] agree on whether
    there is a match, and the match of [orLongest] ends at or after the
    match of [or]. *)
Theorem X2_or_vs_orLongest (f : parseFn) rs n options input start stack outs :
  Forall2 (λ o out, f o input start stack = ret out) options outs →
  ∃ a b,
    parseInternal_run rs f n (parseInternal (or options)) input start stack
    = ret a
    ∧ parseInternal_run rs f n (parseInternal (orLongest options))
                        input start stack = ret b
    ∧ (a = None ↔ b = None)
    ∧ (∀ ra rb, a = Some ra → b = Some rb → end_ ra ≤ end_ rb).
Proof.
  intros Houts. simpl.
  assert (∃ a, orLoop f options input start stack = ret a
               ∧ match a with
                 | None => Forall (λ out, out = None) outs
                 | Some ra => ∃ i : nat, outs !! i = Some (Some ra)
                 end) as (a & Ha & Hfirst).
  { clear n. induction Houts as [|o out options outs Ho _ IH]; simpl.
    - exists None. split; [done|constructor].
    - rewrite Ho. simpl. destruct out as [res|].
      + exists (Some res). split; [done|]. by exists 0%nat.
      + destruct IH as (a & -> & Ha). exists a. split; [done|].
        destruct a as [ra|]; [|by constructor].
        destruct Ha as [i Hi]. by exists (S i). }
  exists a, (foldl keepLongest None outs).
  split; [done|]. split; [by apply orLongestLoop_returns|].
  pose proof (foldl_keepLongest_firstLongest outs [] None firstLongest_nil)
    as Hb. simpl in Hb.
  destruct a as [ra|], (foldl keepLongest None outs) as [rb|]; simpl in *.
  - split; [done|]. intros ? ? [= <-] [= <-].
    destruct Hfirst as [i Hi], Hb as (_ & _ & Hmax & _). eauto.
  - destruct Hfirst as [i Hi].
    apply list_elem_of_lookup_2, Hb in Hi. discriminate.
  - destruct Hb as (i & Hi & _). rewrite Forall_forall in Hfirst.
    apply list_elem_of_lookup_2, Hfirst in Hi. discriminate.
  - done.
Qed.

(** ** Optional match *)

(** X3: [opt] never reports "no match": when the wrapped rule matches, the
    result is tagged present with its value and end; when it fails, the
    result is tagged absent and ends at [start]; an exception of the
    wrapped rule passes through. *)
Theorem X3_opt_always_matches (f : parseFn) rs n rule input start stack :
  parseInternal_run rs f n (parseInternal (opt rule)) input start stack
  ≠ ret None
  ∧ (∀ res,
       parseInternal_run rs f n (parseInternal (opt rule)) input start stack
       = ret (Some res)
       ↔ (∃ inner, f rule input start stack = ret (Some inner)
            ∧ res = mkParseResult (VOptResult true (value inner))
                                  (end_ inner))
         ∨ (f rule input start stack = ret None
            ∧ res = mkParseResult (VOptResult false VUndefined) start))
  ∧ (∀ e,
       parseInternal_run rs f n (parseInternal (opt rule)) input start stack
       = throw e
       ↔ f rule input start stack = throw e).
Proof.
  simpl. destruct (f rule input start stack) as [[[inner|]|e]|]; simpl.
  - split; [done|]. split.
    + intros res. split.
      * intros [= <-]. left. eauto.
      * intros [(inner' & [= <-] & ->)|[[=] _]]. done.
    + done.
  - split; [done|]. split.
    + intros res. split.
      * intros [= <-]. by right.
      * intros [(inner' & [=] & _)|[_ ->]]. done.
    + done.
  - split; [done|]. split; [|done].
    intros res. split; [done|]. by intros [(? & [=] & _)|[[=] _]].
  - split; [done|]. split; [|done].
    intros res. split; [done|]. by intros [(? & [=] & _)|[[=] _]].
Qed.

(** ** Single tokens *)

(** X4: [token(k)] matches exactly when there is a token at [start] whose
    key is [k]; it then yields the payload and ends one past [start].  At
    or past the end of the input, and on another key, it has no result;
    at a negative offset it dies on the missing token. *)
Theorem X4_token_match fuel rs k input start stack :
  includes stack (stackItem_of (Data:=Data) (token k) start) = false →
  (0 ≤ start →
   ParserRule_parse (S fuel) rs (token k) input start stack
   = ret (match input !! Z.to_nat start with
          | Some t =>
              if decide (key t = k)
              then Some (mkParseResult (VData (data t)) (start + 1))
              else None
          | None => None
          end))
  ∧ (start < 0 →
     ParserRule_parse (S fuel) rs (token k) input start stack
     = throw TypeError).
Proof.
  intros Hguard. rewrite ParserRule_parse_S, Hguard.
  cbn [token parseInternal parseInternal_run]. unfold at_, length_.
  split; intros Hs.
  - destruct (Z.leb_spec (Z.of_nat (length input)) start) as [Hge|Hlt].
    + rewrite lookup_ge_None_2 by lia. done.
    + rewrite decide_True by done.
      destruct (lookup_lt_is_Some_2 input (Z.to_nat start)) as [t ->];
        [lia|].
      destruct (String.eqb_spec (key t) k); by case_decide.
  - destruct (Z.leb_spec (Z.of_nat (length input)) start); [lia|].
    by rewrite decide_False by lia.
Qed.

(** ** Rules with the same parse function *)

Lemma same_closure_agree fuel1 fuel2 rs r r' input start stack1 stack2 o1 o2 :
  parseInternal r = parseInternal r' →
  ParserRule_parse fuel1 rs r input start stack1 = ret o1 →
  ParserRule_parse fuel2 rs r' input start stack2 = ret o2 →
  o1 = o2.
Proof.
  intros Heq H1 H2. destruct fuel1 as [|fuel1], fuel2 as [|fuel2];
    try discriminate.
  rewrite ParserRule_parse_S in H1, H2. rewrite Heq in H1.
  destruct (includes stack1 _); [discriminate|].
  destruct (includes stack2 _); [discriminate|].
  eapply parseInternal_run_agree; [apply ParserRule_parse_agree|..]; eauto.
Qed.

Lemma ParserRule_parse_Return_inv fuel rs r input start stack o :
  ParserRule_parse fuel rs r input start stack = ret o →
  ∃ fuel',
    fuel = S fuel'
    ∧ parseInternal_run rs (ParserRule_parse fuel' rs) fuel' (parseInternal r)
        input start (stack ++ [stackItem_of r start]) = ret o.
Proof.
  destruct fuel as [|fuel']; [discriminate|]. rewrite ParserRule_parse_S.
  destruct (includes _ _); [discriminate|]. eauto.
Qed.

(** ** Value adapters *)

(** X5: mapping twice is mapping once with the composed function, and
    mapping with the identity changes nothing: whenever the two rules
    return, on whatever stacks, they return the same thing. *)
Theorem X5_map_composes rs r (h1 h2 : Value Data → Value Data)
    input start :
  (∀ fuel1 fuel2 stack1 stack2 o1 o2,
     ParserRule_parse fuel1 rs (map_ (map_ r h1) h2) input start stack1
     = ret o1 →
     ParserRule_parse fuel2 rs (map_ r (h2 ∘ h1)) input start stack2
     = ret o2 →
     o1 = o2)
  ∧ (∀ fuel1 fuel2 stack1 stack2 o1 o2,
       ParserRule_parse fuel1 rs (map_ r id) input start stack1 = ret o1 →
       ParserRule_parse fuel2 rs r input start stack2 = ret o2 →
       o1 = o2).
Proof.
  split; intros fuel1 fuel2 stack1 stack2 o1 o2 H1 H2.
  - apply ParserRule_parse_Return_inv in H1 as (f1 & -> & H1).
    apply ParserRule_parse_Return_inv in H2 as (f2 & -> & H2).
    cbn [map_ parseInternal parseInternal_run] in H1, H2.
    bind_inv H1. bind_inv H2. apply ret_Return_inv in H1, H2. subst o1 o2.
    apply ParserRule_parse_Return_inv in Ha as (f1' & -> & Ha).
    cbn [map_ parseInternal parseInternal_run] in Ha.
    bind_inv Ha. apply ret_Return_inv in Ha. subst a.
    rewrite (ParserRule_parse_agree _ _ _ _ _ _ _ _ _ _ Ha1 Ha0).
    by destruct a0.
  - apply ParserRule_parse_Return_inv in H1 as (f1 & -> & H1).
    cbn [map_ parseInternal parseInternal_run] in H1.
    bind_inv H1. apply ret_Return_inv in H1. subst o1.
    rewrite (ParserRule_parse_agree _ _ _ _ _ _ _ _ _ _ Ha H2).
    by destruct o2 as [[]|].
Qed.

Lemma filter_run_inv (f : parseFn) rs n rule (p : Value Data → bool)
    input start stack o :
  parseInternal_run rs f n (filterFn rule p) input start stack = ret o →
  ∃ inner,
    f rule input start stack = ret inner
    ∧ o = match inner with
          | Some res => if p (value res) then Some res else None
          | None => None
          end.
Proof. simpl. intros H. bind_inv H. apply ret_Return_inv in H. eauto. Qed.

(** X6: a result of [filter] is a result of the wrapped rule, unchanged,
    whose value the predicate accepts; [filterMap] returns what [filter]
    returns; and filtering twice is filtering once with both predicates. *)
Theorem X6_filter_passes rs rule (p q : Value Data → bool) input start :
  (∀ fuel stack res,
     ParserRule_parse fuel rs (filter_ rule p) input start stack
     = ret (Some res) →
     p (value res) = true
     ∧ ∀ fuel2 stack2 o2,
         ParserRule_parse fuel2 rs rule input start stack2 = ret o2 →
         o2 = Some res)
  ∧ (∀ fuel1 fuel2 stack1 stack2 o1 o2,
       ParserRule_parse fuel1 rs (filterMap rule p) input start stack1
       = ret o1 →
       ParserRule_parse fuel2 rs (filter_ rule p) input start stack2
       = ret o2 →
       o1 = o2)
  ∧ (∀ fuel1 fuel2 stack1 stack2 o1 o2,
       ParserRule_parse fuel1 rs (filter_ (filter_ rule p) q)
                        input start stack1 = ret o1 →
       ParserRule_parse fuel2 rs (filter_ rule (λ v, p v && q v))
                        input start stack2 = ret o2 →
       o1 = o2).
Proof.
  split; [|split].
  - intros fuel stack res H.
    apply ParserRule_parse_Return_inv in H as (f1 & -> & H).
    apply (filter_run_inv _ rs f1) in H as ([inner|] & Hinner & Ho); [|discriminate].
    destruct (p (value inner)) eqn:Hp; [|discriminate].
    injection Ho as ->. split; [done|].
    intros fuel2 stack2 o2 H2.
    by rewrite (ParserRule_parse_agree _ _ _ _ _ _ _ _ _ _ H2 Hinner).
  - intros fuel1 fuel2 stack1 stack2 o1 o2 H1 H2.
    apply ParserRule_parse_Return_inv in H1 as (f1 & -> & H1).
    apply ParserRule_parse_Return_inv in H2 as (f2 & -> & H2).
    apply (filter_run_inv _ rs f1) in H1 as (i1 & Hi1 & ->).
    apply (filter_run_inv _ rs f2) in H2 as (i2 & Hi2 & ->).
    by rewrite (ParserRule_parse_agree _ _ _ _ _ _ _ _ _ _ Hi1 Hi2).
  - intros fuel1 fuel2 stack1 stack2 o1 o2 H1 H2.
    apply ParserRule_parse_Return_inv in H1 as (f1 & -> & H1).
    apply ParserRule_parse_Return_inv in H2 as (f2 & -> & H2).
    apply (filter_run_inv _ rs f1) in H1 as (i1 & Hi1 & ->).
    apply (filter_run_inv _ rs f2) in H2 as (i2 & Hi2 & ->).
    apply ParserRule_parse_Return_inv in Hi1 as (f1' & -> & Hi1).
    apply (filter_run_inv _ rs f1') in Hi1 as (i0 & Hi0 & ->).
    rewrite (ParserRule_parse_agree _ _ _ _ _ _ _ _ _ _ Hi2 Hi0).
    destruct i0 as [res|]; [|done].
    destruct (p (value res)); simpl; [|done]. done.
Qed.

(** ** Projections of a sequence *)

Lemma concat_parse fuel rs rules input start stack :
  includes stack (stackItem_of (concatInternal rules) start) = false →
  ParserRule_parse (S fuel) rs (concatInternal rules) input start stack
  = concatLoop (ParserRule_parse fuel rs) rules input
      (stack ++ [stackItem_of (concatInternal rules) start]) [] start.
Proof. intros Hg. by rewrite ParserRule_parse_S, Hg. Qed.

(** X7: [first] runs its rules as a sequence and yields the value of the
    first one with the end offset of the last one; it has no result when
    the sequence has none. *)
Theorem X7_first_projects fuel rs r r1 rest input start stack :
  let c := concatInternal (r :: r1 :: rest) in
  let stack1 := stack ++ [stackItem_of (first r r1 rest) start] in
  let stack2 := stack1 ++ [stackItem_of c start] in
  includes stack (stackItem_of (first r r1 rest) start) = false →
  includes stack1 (stackItem_of c start) = false →
  (∀ res ress,
     Chain (ParserRule_parse fuel rs) input stack2 start (r :: r1 :: rest)
           (res :: ress) →
     ParserRule_parse (S (S fuel)) rs (first r r1 rest) input start stack
     = ret (Some (mkParseResult (value res) (lastEnd start (res :: ress)))))
  ∧ (∀ pre x post ress,
       r :: r1 :: rest = pre ++ x :: post →
       Chain (ParserRule_parse fuel rs) input stack2 start pre ress →
       ParserRule_parse fuel rs x input (lastEnd start ress) stack2
       = ret None →
       ParserRule_parse (S (S fuel)) rs (first r r1 rest) input start stack
       = ret None).
Proof.
  intros c stack1 stack2 Hg1 Hg2.
  assert (ParserRule_parse (S (S fuel)) rs (first r r1 rest) input start stack
          = let* result := concatLoop (ParserRule_parse fuel rs)
                             (r :: r1 :: rest) input stack2 [] start in
            ret (match result with
                 | None => None
                 | Some res =>
                     Some (mkParseResult (firstOf (value res)) (end_ res))
                 end)) as ->.
  { rewrite ParserRule_parse_S, Hg1.
    cbn [first parseInternal parseInternal_run]. fold c.
    by rewrite (concat_parse _ _ _ _ _ _ Hg2). }
  split.
  - intros res ress Hc.
    by rewrite (proj2 (concatLoop_Some _ _ _ _ [] start _)
                  (ex_intro _ (res :: ress) (conj Hc eq_refl))).
  - intros pre x post ress Heq Hc Hx.
    assert (concatLoop (ParserRule_parse fuel rs) (r :: r1 :: rest) input
              stack2 [] start = ret None) as ->; [|done].
    apply concatLoop_None. eauto 8.
Qed.

(** X8: [last] runs its rules as a sequence and yields the value of the
    last one with its end offset; over no rules at all it matches the empty
    sequence with the value [undefined]. *)
Theorem X8_last_projects fuel rs rules input start stack :
  let c := concatInternal rules in
  let stack1 := stack ++ [stackItem_of (last rules) start] in
  let stack2 := stack1 ++ [stackItem_of c start] in
  includes stack (stackItem_of (last rules) start) = false →
  includes stack1 (stackItem_of c start) = false →
  (∀ ress res,
     Chain (ParserRule_parse fuel rs) input stack2 start rules
           (ress ++ [res]) →
     ParserRule_parse (S (S fuel)) rs (last rules) input start stack
     = ret (Some (mkParseResult (value res) (end_ res))))
  ∧ (rules = [] →
     ParserRule_parse (S (S fuel)) rs (last rules) input start stack
     = ret (Some (mkParseResult VUndefined start)))
  ∧ (∀ pre x post ress,
       rules = pre ++ x :: post →
       Chain (ParserRule_parse fuel rs) input stack2 start pre ress →
       ParserRule_parse fuel rs x input (lastEnd start ress) stack2
       = ret None →
       ParserRule_parse (S (S fuel)) rs (last rules) input start stack
       = ret None).
Proof.
  intros c stack1 stack2 Hg1 Hg2.
  assert (ParserRule_parse (S (S fuel)) rs (last rules) input start stack
          = let* result := concatLoop (ParserRule_parse fuel rs)
                             rules input stack2 [] start in
            ret (match result with
                 | None => None
                 | Some res =>
                     Some (mkParseResult (lastOf (value res)) (end_ res))
                 end)) as ->.
  { rewrite ParserRule_parse_S, Hg1.
    cbn [last parseInternal parseInternal_run]. fold c.
    by rewrite (concat_parse _ _ _ _ _ _ Hg2). }
  split; [|split].
  - intros ress res Hc.
    rewrite (proj2 (concatLoop_Some _ _ _ _ [] start _)
               (ex_intro _ (ress ++ [res]) (conj Hc eq_refl))).
    rewrite app_nil_l, map_app, lastEnd_snoc.
    cbn [bind ret value end_ lastOf map]. by rewrite last_last.
  - intros ->. done.
  - intros pre x post ress Heq Hc Hx.
    assert (concatLoop (ParserRule_parse fuel rs) rules input
              stack2 [] start = ret None) as ->; [|done].
    apply concatLoop_None. eauto 8.
Qed.

(** ** Names *)

Lemma prefix_append (p s : string) : String.prefix p (p +:+ s) = true.
Proof.
  induction p as [|a p IH]; simpl; [by destruct s|].
  by destruct (Ascii.ascii_dec a a).
Qed.

Lemma substring_all (s : string) : String.substring 0 (String.length s) s = s.
Proof. induction s as [|a s IH]; simpl; [done|]. by rewrite IH. Qed.

Lemma replace_head (p q s : string) : replace p q (p +:+ s) = q +:+ s.
Proof.
  assert (String.substring (String.length p)
            (String.length (p +:+ s) - String.length p) (p +:+ s) = s) as Hs.
  { induction p as [|a p IH]; simpl.
    - rewrite Nat.sub_0_r. apply substring_all.
    - apply IH. }
  assert (∀ t, replace p q t
               = if String.prefix p t
                 then q +:+ String.substring (String.length p)
                              (String.length t - String.length p) t
                 else match t with
                      | EmptyString => EmptyString
                      | String c t' => String c (replace p q t')
                      end) as Hunfold by (by intros []).
  by rewrite Hunfold, prefix_append, Hs.
Qed.

(** X9: the name of a [first] or [last] rule is the operator applied to
    the names of its rules; renaming the inner sequence touches only the
    leading operator, whatever the names of the rules contain. *)
Theorem X9_first_last_names r r1 rest (rules : list (ParserRule Data)) :
  name (first r r1 rest)
  = "first(" +:+ joinNames (Data:=Data) (r :: r1 :: rest) +:+ ")"
  ∧ name (last rules) = "last(" +:+ joinNames rules +:+ ")".
Proof.
  split.
  - change (name (first r r1 rest))
      with (replace "concat" "first"
              ("concat" +:+ "(" +:+ joinNames (r :: r1 :: rest) +:+ ")")).
    by rewrite replace_head.
  - change (name (last rules))
      with (replace "concat" "last"
              ("concat" +:+ "(" +:+ joinNames rules +:+ ")")).
    by rewrite replace_head.
Qed.

(** ** Bounds of a repetition *)

Lemma rep_run_inv (f : parseFn) rs n rule sep min max input start stack o :
  parseInternal_run rs f n (parseInternal (rep rule sep min max))
                    input start stack = ret o →
  ∃ results e,
    repMatch f n rule sep input start stack = ret (results, e)
    ∧ o = repAccept min max results e.
Proof.
  simpl. intros H. bind_inv H. destruct a as [results e].
  apply ret_Return_inv in H. eauto.
Qed.

(** X10: whatever [rep(R, min, max)] returns is an array whose length is at
    least [min], and at most [max] when [max] is given. *)
Theorem X10_rep_count_in_bounds (f : parseFn) rs n rule sep min max
    input start stack res :
  parseInternal_run rs f n (parseInternal (rep rule sep min max))
                    input start stack = ret (Some res) →
  ∃ vs,
    value res = VArray vs
    ∧ min ≤ Z.of_nat (length vs)
    ∧ (∀ m, max = Some m → Z.of_nat (length vs) ≤ m).
Proof.
  intros (results & e & _ & Hacc)%rep_run_inv. unfold repAccept in Hacc.
  destruct (Z.ltb_spec (Z.of_nat (length results)) min); [discriminate|].
  exists results. destruct max as [m|]; simpl in Hacc.
  - destruct (Z.ltb_spec m (Z.of_nat (length results))); [discriminate|].
    injection Hacc as ->. split; [done|]. split; [done|].
    by intros ? [= <-].
  - injection Hacc as ->. split; [done|]. split; [done|]. by intros.
Qed.

(** X11: a repetition whose maximum is below its minimum never matches;
    one without a maximum and with a minimum of zero or less, [star]
    among them, never reports "no match". *)
Theorem X11_rep_degenerate_bounds (f : parseFn) rs n rule sep min max
    input start stack :
  (∀ m, max = Some m → m < min →
        ∀ res, parseInternal_run rs f n (parseInternal (rep rule sep min max))
                                 input start stack ≠ ret (Some res))
  ∧ (max = None → min ≤ 0 →
     parseInternal_run rs f n (parseInternal (rep rule sep min max))
                       input start stack ≠ ret None)
  ∧ parseInternal_run rs f n (parseInternal (star rule sep))
                      input start stack ≠ ret None.
Proof.
  assert (∀ min', min' ≤ 0 →
            parseInternal_run rs f n (parseInternal (rep rule sep min' None))
                              input start stack ≠ ret None) as Hstar.
  { intros min' Hmin (results & e & _ & Hacc)%rep_run_inv.
    unfold repAccept in Hacc.
    destruct (Z.ltb_spec (Z.of_nat (length results)) min'); [lia|].
    discriminate. }
  split; [|split].
  - intros m -> Hlt res (results & e & _ & Hacc)%rep_run_inv.
    unfold repAccept in Hacc.
    destruct (Z.ltb_spec (Z.of_nat (length results)) min); [discriminate|].
    destruct (Z.ltb_spec m (Z.of_nat (length results))); [discriminate|].
    lia.
  - intros -> Hmin. by apply Hstar.
  - by apply Hstar.
Qed.

(** X12: [plus] is [star] without the empty match: what [star] returns,
    [plus] returns too, unless it is the empty array, which [plus] turns
    into "no match"; on zero matches [star] yields the empty array at
    [start]. *)
Theorem X12_plus_is_nonempty_star (f : parseFn) rs n rule sep
    input start stack :
  (∀ o,
     parseInternal_run rs f n (parseInternal (star rule sep))
                       input start stack = ret o →
     parseInternal_run rs f n (parseInternal (plus rule sep))
                       input start stack
     = ret (match o with
            | Some res =>
                match value res with
                | VArray (_ :: _) => Some res
                | _ => None
                end
            | None => None
            end))
  ∧ (∀ e,
       parseInternal_run rs f n (parseInternal (star rule sep))
                         input start stack = throw e →
       parseInternal_run rs f n (parseInternal (plus rule sep))
                         input start stack = throw e)
  ∧ (f rule input start stack = ret None →
     parseInternal_run rs f n (parseInternal (star rule sep))
                       input start stack
     = ret (Some (mkParseResult (VArray []) start))
     ∧ parseInternal_run rs f n (parseInternal (plus rule sep))
                         input start stack = ret None).
Proof.
  simpl. split; [|split].
  - intros o H. bind_inv H. destruct a as [results e].
    apply ret_Return_inv in H. subst o. rewrite Ha. simpl.
    unfold repAccept. destruct results as [|v results]; [done|].
    cbn [length value].
    by destruct (Z.ltb_spec (Z.of_nat (S (length results))) 1); [lia|].
  - intros e H.
    apply bind_Throw_inv in H as [H|([results e'] & _ & H)];
      [by rewrite H|discriminate].
  - intros Hnone. unfold repMatch. by rewrite Hnone.
Qed.

(** ** Lookahead *)

(** X13: [not(not(R))] is a positive lookahead: it matches, with the value
    [undefined] and without consuming, exactly when [R] matches, and has no
    result exactly when [R] has none. *)
Theorem X13_not_not_lookahead fuel rs R input start stack o :
  let stack1 := stack ++ [stackItem_of (not (not R)) start] in
  let stack2 := stack1 ++ [stackItem_of (not R) start] in
  includes stack (stackItem_of (not (not R)) start) = false →
  includes stack1 (stackItem_of (not R) start) = false →
  ParserRule_parse fuel rs R input start stack2 = ret o →
  ParserRule_parse (S (S fuel)) rs (not (not R)) input start stack
  = ret (match o with
         | Some _ => Some (mkParseResult VUndefined start)
         | None => None
         end).
Proof.
  intros stack1 stack2 Hg1 Hg2 Ho.
  rewrite ParserRule_parse_S, Hg1.
  cbn [not parseInternal parseInternal_run].
  rewrite ParserRule_parse_S. fold stack1. rewrite Hg2.
  cbn [not parseInternal parseInternal_run]. fold stack2. rewrite Ho.
  by destruct o.
Qed.

(** ** The registry *)

Lemma newParser_lookup roots (g : gmap string (ParserRule Data)) k :
  rules (newParser roots g) !! k = (λ r, withName r k) <$> g !! k.
Proof.
  unfold newParser. cbn [rules]. rewrite map_lookup_imap.
  by destruct (g !! k).
Qed.

(** X14: in a built grammar a reference [sub(k)] returns what the rule
    given under [k] returns, whenever both return; when nothing is
    registered under [k] the reference dies on the missing rule. *)
Theorem X14_sub_refers roots (g : gmap string (ParserRule Data)) k
    input start :
  (∀ r0 fuel1 fuel2 stack1 stack2 o1 o2,
     g !! k = Some r0 →
     ParserRule_parse fuel1 (rules (newParser roots g)) (sub k)
                      input start stack1 = ret o1 →
     ParserRule_parse fuel2 (rules (newParser roots g)) r0
                      input start stack2 = ret o2 →
     o1 = o2)
  ∧ (∀ fuel stack,
       g !! k = None →
       includes stack (stackItem_of (Data:=Data) (sub k) start) = false →
       ParserRule_parse (S fuel) (rules (newParser roots g)) (sub k)
                        input start stack = throw TypeError).
Proof.
  split.
  - intros r0 fuel1 fuel2 stack1 stack2 o1 o2 Hk H1 H2.
    apply ParserRule_parse_Return_inv in H1 as (f1 & -> & H1).
    cbn [sub parseInternal parseInternal_run] in H1.
    rewrite newParser_lookup, Hk in H1. simpl in H1.
    by eapply (same_closure_agree _ _ _ (withName r0 k) r0).
  - intros fuel stack Hk Hg. rewrite ParserRule_parse_S, Hg.
    cbn [sub parseInternal parseInternal_run].
    by rewrite newParser_lookup, Hk.
Qed.

(** X15: the constructor keeps the keys of the builder's rules and renames
    every rule to its key, leaving its parse function alone; the roots
    are kept as given. *)
Theorem X15_registered_rules_renamed rootNames
    (g : gmap string (ParserRule Data)) :
  roots (newParser rootNames g) = rootNames
  ∧ dom (rules (newParser rootNames g)) = dom g
  ∧ (∀ k r,
       rules (newParser rootNames g) !! k = Some r
       ↔ ∃ r0, g !! k = Some r0
               ∧ name r = k
               ∧ parseInternal r = parseInternal r0).
Proof.
  split; [done|]. split.
  - apply set_eq. intros k. rewrite !elem_of_dom, newParser_lookup.
    by rewrite fmap_is_Some.
  - intros k r. rewrite newParser_lookup. split.
    + intros (r0 & -> & ->)%fmap_Some. eauto.
    + intros (r0 & -> & <- & Hc). simpl. f_equal.
      destruct r as [n c]. simpl in *. by subst.
Qed.

(** X16: a grammar whose first root is registered as a reference to
    itself stops with the loop error: the trace holds the marker of the
    root at offset 0, and the offending marker is the same. *)
Theorem X16_self_reference_loops (json : option (Token Data) → string)
    others (g : gmap string (ParserRule Data)) k input fuel :
  g !! k = Some (sub k) →
  Parser_parse json (S (S fuel)) (newParser (k :: others) g) input
  = throw (Error (loopMessage [marker (k, 0)] (marker (k, 0)))).
Proof.
  intros Hk. unfold Parser_parse. cbn [roots newParser rootsLoop].
  change (map_imap _ g) with (rules (newParser (k :: others) g)).
  rewrite newParser_lookup, Hk. cbn [fmap option_fmap option_map].
  rewrite ParserRule_parse_S.
  replace (includes [] _) with false by done.
  cbn [withName sub parseInternal parseInternal_run].
  rewrite newParser_lookup, Hk. cbn [fmap option_fmap option_map].
  rewrite ParserRule_parse_S.
  change (stackItem_of (withName (sub k) k) 0) with (marker (k, 0)).
  unfold includes. rewrite bool_decide_true; [done|].
  simpl. constructor.
Qed.

(** ** The stack only matters to the guard *)

(** X17: what a rule returns does not depend on the stack it is invoked
    with: two invocations at the same offset that both return, return the
    same result. *)
Theorem X17_result_independent_of_stack fuel1 fuel2 rs r input start
    stack1 stack2 o1 o2 :
  ParserRule_parse fuel1 rs r input start stack1 = ret o1 →
  ParserRule_parse fuel2 rs r input start stack2 = ret o2 →
  o1 = o2.
Proof.
  revert fuel2 r input start stack1 stack2 o1 o2.
  induction fuel1 as [|fuel1 IH];
    intros [|fuel2] r input start stack1 stack2 o1 o2 H1 H2;
    try discriminate.
  rewrite ParserRule_parse_S in H1, H2.
  destruct (includes stack1 _); [discriminate|].
  destruct (includes stack2 _); [discriminate|].
  eapply parseInternal_run_agree; [|exact H1|exact H2].
  intros r' input' start' st1 st2 x1 x2. apply IH.
Qed.

(** ** Where an exception comes from *)

Section ThrowOrigin.

Variables (f : parseFn) (input : list (Token Data)) (stack : list string).

(** The exception is a [TypeError], or some call made on this stack threw
    it. *)
Local Abbreviation fromCall e :=
  (e = TypeError ∨ ∃ r' start', f r' input start' stack = throw e).

Lemma concatLoop_throw_origin rules results e' e :
  concatLoop f rules input stack results e' = throw e → fromCall e.
Proof.
  revert results e'. induction rules as [|rule rest IH]; intros results e' H;
    simpl in H; [discriminate|].
  apply bind_Throw_inv in H as [H|([res|] & _ & H)]; eauto; discriminate.
Qed.

Lemma orLoop_throw_origin options start e :
  orLoop f options input start stack = throw e → fromCall e.
Proof.
  induction options as [|o rest IH]; intros H; simpl in H; [discriminate|].
  apply bind_Throw_inv in H as [H|([res|] & _ & H)]; eauto; discriminate.
Qed.

Lemma orLongestLoop_throw_origin options start longest e :
  orLongestLoop f options input start stack longest = throw e → fromCall e.
Proof.
  revert longest. induction options as [|o rest IH]; intros longest H;
    simpl in H; [discriminate|].
  apply bind_Throw_inv in H as [H|(a & _ & H)]; eauto.
Qed.

Lemma repLoop_throw_origin n rule sep results e' e :
  repLoop f n rule sep input stack results e' = throw e → fromCall e.
Proof.
  revert results e'. induction n as [|n IH]; intros results e' H;
    [discriminate|].
  simpl in H. apply bind_Throw_inv in H as [H|(a & _ & H)].
  { destruct sep as [s|]; [|discriminate].
    apply bind_Throw_inv in H as [H|(a & _ & H)]; eauto; discriminate. }
  destruct a as [start'|]; [|discriminate].
  apply bind_Throw_inv in H as [H|([res|] & _ & H)]; eauto; discriminate.
Qed.

Lemma parseInternal_run_throw_origin rs n c start e :
  parseInternal_run rs f n c input start stack = throw e → fromCall e.
Proof.
  intros H. destruct_closure c; simpl in H;
    try solve [ apply bind_Throw_inv in H as [H|(a & _ & H)];
                [eauto|discriminate] ].
  - apply bind_Throw_inv in H as [H|([results e'] & _ & H)];
      [|discriminate].
    unfold repMatch in H.
    apply bind_Throw_inv in H as [H|([res|] & _ & H)];
      [eauto| |discriminate].
    by eapply repLoop_throw_origin.
  - by eapply concatLoop_throw_origin.
  - by eapply orLoop_throw_origin.
  - by eapply orLongestLoop_throw_origin.
  - repeat case_match; simplify_eq; eauto; discriminate.
  - destruct (rs !! k); [eauto|]. injection H as <-. by left.
Qed.

End ThrowOrigin.

(** X18: an exception out of [parse] is a [TypeError] or the loop error,
    and the loop error reports a stack that begins with the stack given
    to [parse] and holds the offending marker. *)
Theorem X18_loop_error_extends_stack fuel rs r input start stack e :
  ParserRule_parse fuel rs r input start stack = throw e →
  e = TypeError
  ∨ ∃ reported stackItem,
      e = Error (loopMessage reported stackItem)
      ∧ stack `prefix_of` reported
      ∧ stackItem ∈ reported.
Proof.
  revert r start stack.
  induction fuel as [|fuel IH]; intros r start stack H; [discriminate|].
  rewrite ParserRule_parse_S in H.
  destruct (includes stack (stackItem_of r start)) eqn:Hg.
  - injection H as <-. right. exists stack, (stackItem_of r start).
    split; [done|]. split; [done|]. by apply bool_decide_eq_true in Hg.
  - apply parseInternal_run_throw_origin in H as [->|(r' & start' & H)];
      [by left|].
    apply IH in H as [->|(reported & item & -> & Hpre & Hin)]; [by left|].
    right. exists reported, item. split; [done|]. split; [|done].
    etrans; [|exact Hpre]. by apply prefix_app_r.
Qed.

(** ** What the top-level parse returns *)

Lemma rootsLoop_origin fuel (p : Parser Data) input todo best res :
  rootsLoop fuel p todo input best = ret (Some res) →
  best = Some res
  ∨ ∃ root r,
      root ∈ todo
      ∧ rules p !! root = Some r
      ∧ ParserRule_parse fuel (rules p) r input 0 [] = ret (Some res).
Proof.
  revert best. induction todo as [|root rest IH]; intros best H; simpl in H.
  - left. by apply ret_Return_inv in H.
  - destruct (rules p !! root) as [r|] eqn:Hr; [|discriminate].
    bind_inv H. apply IH in H as [H|(root' & r' & Hin & Hr' & H)].
    + assert (best = Some res ∨ a = Some res) as [?| ->].
      { destruct a as [res'|], best as [b|]; simpl in H; auto.
        case_match; auto. }
      * by left.
      * right. exists root, r. split; [constructor|done].
    + right. exists root', r'. split; [by constructor|done].
Qed.

(** X19: a value returned by [Parser.parse] is the value of a root that
    matched at offset 0 on the empty stack and consumed the whole input. *)
Theorem X19_returned_value_is_full_match
    (json : option (Token Data) → string) fuel (p : Parser Data) input v :
  Parser_parse json fuel p input = ret v →
  ∃ root r res,
    root ∈ roots p
    ∧ rules p !! root = Some r
    ∧ ParserRule_parse fuel (rules p) r input 0 [] = ret (Some res)
    ∧ value res = v
    ∧ end_ res = length_ input.
Proof.
  unfold Parser_parse. intros H. bind_inv H.
  destruct a as [res|]; [|discriminate].
  destruct (Z.ltb_spec (end_ res) (length_ input)); [discriminate|].
  apply ret_Return_inv in H.
  apply rootsLoop_origin in Ha as [[=]|(root & r & Hin & Hr & Hres)].
  exists root, r, res. repeat split; try done.
  apply ParserRule_parse_bounded in Hres; unfold length_ in *; lia.
Qed.

(** ** The overloads of [rep] *)


End Coverage.

(** * More of the engine, on concrete grammars *)

Section CoverageConcrete.

Import Examples.

Lemma X1_or_first_match_witness :
  let f := ParserRule_parse 1 (∅ : gmap string (ParserRule string)) in
  Forall (λ o, f o [tok "b"] 0 [] = ret None) [token "a"]
  ∧ f (token "b") [tok "b"] 0 [] = ret (Some (mkParseResult (VData "b") 1))
  ∧ parseInternal_run ∅ f 0 (parseInternal (or [token "a"; token "b"]))
                      [tok "b"] 0 []
    = ret (Some (mkParseResult (VData "b") 1)).
Proof.
  intros f.
  assert (Forall (λ o, f o [tok "b"] 0 [] = ret None) [token "a"]) as Hpre.
  { constructor; [vm_compute; reflexivity|constructor]. }
  assert (f (token "b") [tok "b"] 0 []
          = ret (Some (mkParseResult (VData "b") 1))) as Ho.
  { vm_compute. reflexivity. }
  split; [exact Hpre|]. split; [exact Ho|].
  apply (proj1 (X1_or_first_match f ∅ 0 [token "a"; token "b"]
                  [tok "b"] 0 [])).
  exists [token "a"], (token "b"), []. split; [reflexivity|].
  split; [exact Hpre|exact Ho].
Defined.

Lemma X2_or_vs_orLongest_witness :
  let f := ParserRule_parse 3 (∅ : gmap string (ParserRule string)) in
  let input := [tok "x"; tok "x"; tok "x"] in
  let outs :=
    [Some (mkParseResult (VArray [VData "x"; VData "x"]) 2);
     Some (mkParseResult (VArray [VData "x"; VData "x"; VData "x"]) 3)] in
  Forall2 (λ o out, f o input 0 [] = ret out) [two; three] outs
  ∧ ∃ a b,
      parseInternal_run ∅ f 0 (parseInternal (or [two; three])) input 0 []
      = ret a
      ∧ parseInternal_run ∅ f 0 (parseInternal (orLongest [two; three]))
                          input 0 [] = ret b
      ∧ (a = None ↔ b = None)
      ∧ (∀ ra rb, a = Some ra → b = Some rb → end_ ra ≤ end_ rb).
Proof.
  intros f input outs.
  assert (Forall2 (λ o out, f o input 0 [] = ret out) [two; three] outs)
    as Houts.
  { repeat constructor; vm_compute; reflexivity. }
  split; [exact Houts|].
  exact (X2_or_vs_orLongest f ∅ 0 [two; three] input 0 [] outs Houts).
Defined.

Lemma X4_token_match_witness :
  includes [] (stackItem_of (Data:=string) (token "A") 0) = false
  ∧ ParserRule_parse 1 ∅ (token "A") [tok "A"; tok "B"] 0 []
    = ret (Some (mkParseResult (VData "A") 1))
  ∧ ParserRule_parse 1 ∅ (token "A") [tok "A"; tok "B"] 1 [] = ret None
  ∧ ParserRule_parse 1 ∅ (token "A") [tok "A"; tok "B"] 2 [] = ret None
  ∧ ParserRule_parse 1 ∅ (token "A") [tok "A"; tok "B"] (-1) []
    = throw TypeError.
Proof.
  split; [reflexivity|]. split; [|split; [|split]].
  - exact (proj1 (X4_token_match 0 ∅ "A" [tok "A"; tok "B"] 0 [] eq_refl)
             ltac:(lia)).
  - exact (proj1 (X4_token_match 0 ∅ "A" [tok "A"; tok "B"] 1 [] eq_refl)
             ltac:(lia)).
  - exact (proj1 (X4_token_match 0 ∅ "A" [tok "A"; tok "B"] 2 [] eq_refl)
             ltac:(lia)).
  - exact (proj2 (X4_token_match 0 ∅ "A" [tok "A"; tok "B"] (-1) [] eq_refl)
             ltac:(lia)).
Defined.

Lemma X5_map_composes_witness :
  let h1 : Value string → Value string := λ v, VArray [v] in
  let h2 : Value string → Value string := λ v, VArray [v; v] in
  let wrapped :=
    Some (mkParseResult (VArray [VArray [VData "A"]; VArray [VData "A"]]) 1) in
  ParserRule_parse 3 ∅ (map_ (map_ (token "A") h1) h2) [tok "A"] 0 []
  = ret wrapped
  ∧ ParserRule_parse 2 ∅ (map_ (token "A") (h2 ∘ h1)) [tok "A"] 0 ["x:0"]
    = ret wrapped.
Proof.
  intros h1 h2 wrapped.
  assert (ParserRule_parse 3 ∅ (map_ (map_ (token "A") h1) h2) [tok "A"] 0 []
          = ret wrapped) as H1 by (vm_compute; reflexivity).
  split; [exact H1|].
  destruct (ParserRule_parse 2 ∅ (map_ (token "A") (h2 ∘ h1)) [tok "A"] 0
              ["x:0"]) as [[o2|e]|] eqn:H2;
    [|vm_compute in H2; discriminate..].
  by rewrite <- (proj1 (X5_map_composes ∅ (token "A") h1 h2 [tok "A"] 0)
                   _ _ _ _ _ _ H1 H2).
Defined.

Lemma X6_filter_passes_witness :
  let p : Value string → bool :=
    λ v, match v with VData "A" => true | _ => false end in
  ParserRule_parse 2 ∅ (filter_ (token "A") p) [tok "A"] 0 []
  = ret (Some (mkParseResult (VData "A") 1))
  ∧ p (VData "A") = true
  ∧ ParserRule_parse 2 ∅ (filter_ (token "B") p) [tok "B"] 0 [] = ret None.
Proof.
  intros p.
  assert (ParserRule_parse 2 ∅ (filter_ (token "A") p) [tok "A"] 0 []
          = ret (Some (mkParseResult (VData "A") 1))) as H
    by (vm_compute; reflexivity).
  split; [exact H|]. split; [|vm_compute; reflexivity].
  exact (proj1 (proj1 (X6_filter_passes ∅ (token "A") p p [tok "A"] 0)
                  _ _ _ H)).
Defined.

Lemma X7_first_projects_witness :
  ParserRule_parse 3 ∅ (first (token "a") (token "b") [])
                   [tok "a"; tok "b"] 0 []
  = ret (Some (mkParseResult (VData "a") 2))
  ∧ ParserRule_parse 3 ∅ (first (token "a") (token "b") [])
                     [tok "a"; tok "c"] 0 []
    = ret None.
Proof.
  split.
  - refine (proj1 (X7_first_projects 1 ∅ (token "a") (token "b") []
                     [tok "a"; tok "b"] 0 [] _ _)
              (mkParseResult (VData "a") 1) [mkParseResult (VData "b") 2] _);
      [vm_compute; reflexivity..|].
    repeat (econstructor; [vm_compute; reflexivity|]). constructor.
  - refine (proj2 (X7_first_projects 1 ∅ (token "a") (token "b") []
                     [tok "a"; tok "c"] 0 [] _ _)
              [token "a"] (token "b") [] [mkParseResult (VData "a") 1]
              eq_refl _ _);
      [vm_compute; reflexivity..| |vm_compute; reflexivity].
    econstructor; [vm_compute; reflexivity|constructor].
Defined.

Lemma X8_last_projects_witness :
  ParserRule_parse 3 ∅ (last [token "a"; token "b"]) [tok "a"; tok "b"] 0 []
  = ret (Some (mkParseResult (VData "b") 2))
  ∧ ParserRule_parse 3 ∅ (last []) [tok "a"; tok "b"] 1 []
    = ret (Some (mkParseResult VUndefined 1)).
Proof.
  split.
  - refine (proj1 (X8_last_projects 1 ∅ [token "a"; token "b"]
                     [tok "a"; tok "b"] 0 [] _ _)
              [mkParseResult (VData "a") 1] (mkParseResult (VData "b") 2) _);
      [vm_compute; reflexivity..|].
    repeat (econstructor; [vm_compute; reflexivity|]). constructor.
  - refine (proj1 (proj2 (X8_last_projects 1 ∅ [] [tok "a"; tok "b"] 1 []
                            _ _)) eq_refl);
      vm_compute; reflexivity.
Defined.

Lemma X10_rep_count_in_bounds_witness :
  let f := ParserRule_parse 3 (∅ : gmap string (ParserRule string)) in
  let input := [tok "digit"; tok "digit"; tok "letter"] in
  let res := mkParseResult (VArray [VData "digit"; VData "digit"]) 2 in
  parseInternal_run ∅ f 3
    (parseInternal (rep (token "digit") None 1 (Some 3))) input 0 []
  = ret (Some res)
  ∧ ∃ vs, value res = VArray vs
          ∧ 1 ≤ Z.of_nat (length vs)
          ∧ (∀ m, Some 3 = Some m → Z.of_nat (length vs) ≤ m).
Proof.
  intros f input res.
  assert (parseInternal_run ∅ f 3
            (parseInternal (rep (token "digit") None 1 (Some 3))) input 0 []
          = ret (Some res)) as H by (vm_compute; reflexivity).
  split; [exact H|].
  exact (X10_rep_count_in_bounds f ∅ 3 (token "digit") None 1 (Some 3)
           input 0 [] res H).
Defined.

Lemma X11_rep_degenerate_bounds_witness :
  let f := ParserRule_parse 3 (∅ : gmap string (ParserRule string)) in
  let input := [tok "digit"; tok "digit"; tok "digit"] in
  2 < 3
  ∧ (∀ res, parseInternal_run ∅ f 3
              (parseInternal (rep (token "digit") None 3 (Some 2))) input 0 []
            ≠ ret (Some res))
  ∧ parseInternal_run ∅ f 3
      (parseInternal (rep (token "digit") None 3 (Some 2))) input 0 []
    = ret None.
Proof.
  intros f input. split; [lia|]. split; [|vm_compute; reflexivity].
  exact (proj1 (X11_rep_degenerate_bounds f ∅ 3 (token "digit") None 3
                  (Some 2) input 0 []) 2 eq_refl ltac:(lia)).
Defined.

Lemma X12_plus_is_nonempty_star_witness :
  let f := ParserRule_parse 1 (∅ : gmap string (ParserRule string)) in
  f (token "A") [tok "B"] 0 [] = ret None
  ∧ parseInternal_run ∅ f 1 (parseInternal (star (token "A") None))
                      [tok "B"] 0 []
    = ret (Some (mkParseResult (VArray []) 0))
  ∧ parseInternal_run ∅ f 1 (parseInternal (plus (token "A") None))
                      [tok "B"] 0 []
    = ret None.
Proof.
  intros f.
  assert (f (token "A") [tok "B"] 0 [] = ret None) as H
    by (vm_compute; reflexivity).
  split; [exact H|].
  exact (proj2 (proj2 (X12_plus_is_nonempty_star f ∅ 1 (token "A") None
                         [tok "B"] 0 [])) H).
Defined.

Lemma X13_not_not_lookahead_witness :
  ParserRule_parse 3 ∅ (not (not (token "A"))) [tok "A"] 0 []
  = ret (Some (mkParseResult VUndefined 0))
  ∧ ParserRule_parse 3 ∅ (not (not (token "A"))) [tok "B"] 0 [] = ret None.
Proof.
  split.
  - refine (X13_not_not_lookahead 1 ∅ (token "A") [tok "A"] 0 []
              (Some (mkParseResult (VData "A") 1)) _ _ _);
      vm_compute; reflexivity.
  - refine (X13_not_not_lookahead 1 ∅ (token "A") [tok "B"] 0 [] None _ _ _);
      vm_compute; reflexivity.
Defined.

Lemma X14_sub_refers_witness :
  let g : gmap string (ParserRule string) :=
    {[ "e" := sub "d"; "d" := token "digit" ]} in
  let p := newParser ["e"] g in
  let o := Some (mkParseResult (VData "digit") 1) in
  g !! "d" = Some (token "digit")
  ∧ ParserRule_parse 3 (rules p) (sub "d") [tok "digit"] 0 [] = ret o
  ∧ ParserRule_parse 1 (rules p) (token "digit") [tok "digit"] 0 ["e:0"]
    = ret o
  ∧ ParserRule_parse 1 (rules p) (sub "missing") [tok "digit"] 0 []
    = throw TypeError.
Proof.
  intros g p o.
  assert (g !! "d" = Some (token "digit")) as Hd by (vm_compute; reflexivity).
  assert (ParserRule_parse 3 (rules p) (sub "d") [tok "digit"] 0 [] = ret o)
    as H1 by (vm_compute; reflexivity).
  split; [exact Hd|]. split; [exact H1|]. split.
  - destruct (ParserRule_parse 1 (rules p) (token "digit") [tok "digit"] 0
                ["e:0"]) as [[o2|e]|] eqn:H2;
      [|vm_compute in H2; discriminate..].
    by rewrite <- (proj1 (X14_sub_refers ["e"] g "d" [tok "digit"] 0)
                     _ _ _ _ _ _ _ Hd H1 H2).
  - refine (proj2 (X14_sub_refers ["e"] g "missing" [tok "digit"] 0)
              0%nat [] _ _); vm_compute; reflexivity.
Defined.

Lemma X16_self_reference_loops_witness :
  ({[ "a" := sub "a" ]} : gmap string (ParserRule string)) !! "a"
  = Some (sub "a")
  ∧ Parser_parse json 2 selfRef [tok "x"]
    = throw (Error (loopMessage ["a:0"] "a:0")).
Proof.
  assert (({[ "a" := sub "a" ]} : gmap string (ParserRule string)) !! "a"
          = Some (sub "a")) as Ha by (vm_compute; reflexivity).
  split; [exact Ha|].
  exact (X16_self_reference_loops json [] _ "a" [tok "x"] 0 Ha).
Defined.

Lemma X17_result_independent_of_stack_witness :
  let o := Some (mkParseResult (VArray [VData "x"; VData "x"]) 2) in
  ParserRule_parse 2 ∅ two [tok "x"; tok "x"] 0 [] = ret o
  ∧ ParserRule_parse 5 ∅ two [tok "x"; tok "x"] 0 ["r:0"; "sub(r):0"]
    = ret o.
Proof.
  intros o.
  assert (ParserRule_parse 2 ∅ two [tok "x"; tok "x"] 0 [] = ret o) as H1
    by (vm_compute; reflexivity).
  split; [exact H1|].
  destruct (ParserRule_parse 5 ∅ two [tok "x"; tok "x"] 0
              ["r:0"; "sub(r):0"]) as [[o2|e]|] eqn:H2.
  - by rewrite (X17_result_independent_of_stack _ _ _ _ _ _ _ _ _ _ H2 H1).
  - vm_compute in H2. discriminate.
  - vm_compute in H2. discriminate.
Defined.

Lemma X18_loop_error_extends_stack_witness :
  let e := Error (loopMessage ["r:0"; "a:0"] "a:0") in
  ParserRule_parse 2 (rules selfRef) (mkParserRule "a" (subFn "a"))
                   [tok "x"] 0 ["r:0"] = throw e
  ∧ (e = TypeError
     ∨ ∃ reported stackItem,
         e = Error (loopMessage reported stackItem)
         ∧ ["r:0"] `prefix_of` reported
         ∧ stackItem ∈ reported).
Proof.
  intros e.
  assert (ParserRule_parse 2 (rules selfRef) (mkParserRule "a" (subFn "a"))
            [tok "x"] 0 ["r:0"] = throw e) as H by (vm_compute; reflexivity).
  split; [exact H|].
  exact (X18_loop_error_extends_stack _ _ _ _ _ _ _ H).
Defined.

Lemma X19_returned_value_is_full_match_witness :
  let input := [tok "digit"; tok "digit"] in
  let v := VArray [VData "digit"; VData "digit"] in
  Parser_parse json 4 digits input = ret v
  ∧ ∃ root r res,
      root ∈ roots digits
      ∧ rules digits !! root = Some r
      ∧ ParserRule_parse 4 (rules digits) r input 0 [] = ret (Some res)
      ∧ value res = v
      ∧ end_ res = length_ input.
Proof.
  intros input v.
  assert (Parser_parse json 4 digits input = ret v) as H
    by (vm_compute; reflexivity).
  split; [exact H|].
  exact (X19_returned_value_is_full_match json 4 digits input v H).
Defined.

Lemma Parser_parse_outcomes_witness :
  let input := [tok "digit"; tok "letter"] in
  repetitionsConsume (rules digits) input
  ∧ subsRegistered (rules digits)
  ∧ (∀ root, root ∈ roots digits → is_Some (rules digits !! root))
  ∧ ∃ fuel,
      (∃ v, Parser_parse json fuel digits input = ret v)
      ∨ (∃ e, isLoop e ∧ Parser_parse json fuel digits input = throw e)
      ∨ Parser_parse json fuel digits input = throw (Error "Failed to parse")
      ∨ (∃ t, t ∈ input
           ∧ Parser_parse json fuel digits input
             = throw (Error ("Not all tokens were consumed: "
                               +:+ json (Some t)))).
Proof.
  intros input.
  assert (subsRegistered (rules digits)) as Hreg.
  { intros n k Hr%Reach_grammarRules. vm_compute in Hr.
    repeat (apply elem_of_cons in Hr as [[=]|Hr]). by apply elem_of_nil in Hr. }
  assert (∀ root, root ∈ roots digits → is_Some (rules digits !! root))
    as Hroots.
  { intros root ->%list_elem_of_singleton. by eexists. }
  split; [apply digits_repetitionsConsume|]. split; [exact Hreg|].
  split; [exact Hroots|].
  exact (Parser_parse_outcomes json digits input
           (digits_repetitionsConsume input) Hreg Hroots).
Defined.

End CoverageConcrete.
